(** * safe_numerics: checked results and the operators of bounded integers

    A shallow embedding of [include/checked_result.hpp] and
    [include/safe_base_operations.hpp].

    Native machine integers are mathematical integers ([Z]) together with
    the description of their C++ type (signedness and width); conversion to
    a native type is two's-complement reduction, written out in
    [static_cast].  Template parameters become ordinary arguments: a
    function template [f<T, U>(t, u)] is a function of operands that carry
    their static type.  A [static_assert] that fires, or a member looked up
    in [void], makes the instantiation ill-formed: such functions return
    [option], with [None] for "does not compile".  Run-time effects (the
    hooks of the exception policy, assertions) live in the monad [M].

    The built-in operators follow the language: operands narrower than
    [int] are promoted to [int], an unsigned result is reduced modulo the
    width of its type, and a signed result that its type does not
    represent is undefined behaviour.  [int] is taken as 32 bits wide.
    The input stream of the standard library is a parameter of the
    extraction operator.

    The headers [exception.hpp], [safe_base.hpp], [safe_compare.hpp],
    [checked.hpp] and [interval.hpp], and the policy classes, are not among
    the sources; what the operators use of them is modelled from the
    design document, each such definition saying so.  The output operator
    of streams is left out. *)

From Stdlib Require Import ZArith List String Bool Lia.
Import ListNotations.
Local Open Scope Z_scope.

(* ------------------------------------------------------------------ *)
(** ** Native integer types *)

Module Native.

(** A native integer type: [std::numeric_limits<T>::is_signed] and the
    number of bits of its object representation. *)
Record native_int := mk_native { is_signed : bool; bits : positive }.

Definition modulus (T : native_int) : Z := 2 ^ Z.pos (bits T).
Definition half (T : native_int) : Z := 2 ^ (Z.pos (bits T) - 1).

(** [std::numeric_limits<T>::min()] and [max()]. *)
Definition numeric_min (T : native_int) : Z :=
  if is_signed T then - half T else 0.
Definition numeric_max (T : native_int) : Z :=
  if is_signed T then half T - 1 else modulus T - 1.

(** [static_cast<T>(x)]: the value congruent to [x] modulo [2^bits]
    that [T] represents. *)
Definition static_cast (T : native_int) (x : Z) : Z :=
  if is_signed T
  then (x + half T) mod modulus T - half T
  else x mod modulus T.

Definition representable (T : native_int) (x : Z) : Prop :=
  numeric_min T <= x <= numeric_max T.

Definition int8 := mk_native true 8.
Definition uint8 := mk_native false 8.
Definition int16 := mk_native true 16.
Definition int32 := mk_native true 32.
Definition uint32 := mk_native false 32.

End Native.
Import Native.

(* ------------------------------------------------------------------ *)
(** ** Fault kinds *)

(** Modelled from the spec: [exception.hpp] is not part of the sources at
    hand; the enumeration [safe_numerics_error] is the closed list of fault
    kinds of the design, [success] being the only one that is no fault. *)
Inductive safe_numerics_error : Set :=
| success
| positive_overflow
| negative_overflow
| underflow
| range_error
| domain_error
| divide_by_zero
| logic_error.

Definition error_eqb (a b : safe_numerics_error) : bool :=
  match a, b with
  | success, success | positive_overflow, positive_overflow
  | negative_overflow, negative_overflow | underflow, underflow
  | range_error, range_error | domain_error, domain_error
  | divide_by_zero, divide_by_zero | logic_error, logic_error => true
  | _, _ => false
  end.

(* ------------------------------------------------------------------ *)
(** ** Outcomes of a call *)

(** What a call can come to: it returns a value, control leaves through an
    exception-policy hook that throws or aborts, an [assert] fails, or the
    behaviour is undefined (an inactive union member is read, a native
    division by zero is executed). *)
Inductive outcome (A : Type) : Type :=
| Done (a : A)
| Thrown
| AssertFailed
| Undefined.
Arguments Done {A} a.
Arguments Thrown {A}.
Arguments AssertFailed {A}.
Arguments Undefined {A}.

Definition outcome_bind {A B} (o : outcome A) (f : A -> outcome B) : outcome B :=
  match o with
  | Done a => f a
  | Thrown => Thrown
  | AssertFailed => AssertFailed
  | Undefined => Undefined
  end.

(** [assert(c)]. *)
Definition assert (c : bool) : outcome unit :=
  if c then Done tt else AssertFailed.

(* ------------------------------------------------------------------ *)
(** ** checked_result<R> *)

Module CheckedResult.

(** The anonymous union of [m_r] and [m_msg]: one member is active. *)
Inductive slot (R : Type) : Type :=
| m_r (r : R)
| m_msg (msg : string).
Arguments m_r {R} r.
Arguments m_msg {R} msg.

Record checked_result (R : Type) : Type :=
  mk_checked_result { m_e : safe_numerics_error; m_u : slot R }.
Arguments mk_checked_result {R} m_e m_u.
Arguments m_e {R} c.
Arguments m_u {R} c.

(** [checked_result(const R & r)]. *)
Definition of_value {R} (r : R) : checked_result R :=
  mk_checked_result success (m_r r).

(** [checked_result(safe_numerics_error e, const char * msg)]: the
    members are initialised, then the body asserts [m_e != success]. *)
Definition of_error {R} (e : safe_numerics_error) (msg : string)
  : outcome (checked_result R) :=
  let c := mk_checked_result e (m_msg msg) in
  outcome_bind (assert (negb (error_eqb (m_e c) success))) (fun _ => Done c).

(** [checked_result(const checked_result<T> & t)], with [conv] the
    implicit conversion from [T] to [R]. *)
Definition convert {T R} (conv : T -> R) (t : checked_result T)
  : outcome (checked_result R) :=
  if error_eqb success (m_e t)
  then match m_u t with
       | m_r r => Done (mk_checked_result (m_e t) (m_r (conv r)))
       | m_msg _ => Undefined
       end
  else match m_u t with
       | m_msg msg => Done (mk_checked_result (m_e t) (m_msg msg))
       | m_r _ => Undefined
       end.

(** [bool exception() const]. *)
Definition exception {R} (c : checked_result R) : bool :=
  negb (error_eqb (m_e c) success).

(** [operator R() const]. *)
Definition to_R {R} (c : checked_result R) : outcome R :=
  outcome_bind (assert (negb (exception c))) (fun _ =>
    match m_u c with
    | m_r r => Done r
    | m_msg _ => Undefined
    end).

(** [operator safe_numerics_error() const]. *)
Definition to_error {R} (c : checked_result R) : safe_numerics_error := m_e c.

(** [operator const char *() const]. *)
Definition to_msg {R} (c : checked_result R) : outcome string :=
  outcome_bind (assert (exception c)) (fun _ =>
    match m_u c with
    | m_msg msg => Done msg
    | m_r _ => Undefined
    end).

(** The special members the class declares, and those among them that
    are declared [= delete]. *)
Inductive special_member : Set :=
| default_constructor
| value_constructor
| error_constructor
| converting_constructor
| copy_assignment.

Definition deleted (m : special_member) : bool :=
  match m with
  | default_constructor | copy_assignment => true
  | value_constructor | error_constructor | converting_constructor => false
  end.

(** Modelled from the spec: [no_exception] is called by the operators but
    is not declared in [checked_result.hpp]; the design asks for
    "fault == success". *)
Definition no_exception {R} (c : checked_result R) : bool :=
  error_eqb (m_e c) success.

(** The carrier a checked primitive returns for a fault: the error
    constructor called with a fault kind that is not [success]. *)
Definition fault {R} (e : safe_numerics_error) (msg : string) : checked_result R :=
  mk_checked_result e (m_msg msg).

(** The member of the union that is active agrees with the kind: [m_r]
    for [success], [m_msg] for every other kind. *)
Definition consistent {R} (c : checked_result R) : Prop :=
  match m_u c with
  | m_r _ => m_e c = success
  | m_msg _ => m_e c <> success
  end.

(** The carriers that the constructors of the class build when they
    return: from a value, from a kind and a message, from another
    carrier. *)
Inductive built : forall R : Type, checked_result R -> Prop :=
| built_of_value (R : Type) (r : R) : built R (of_value r)
| built_of_error (R : Type) (e : safe_numerics_error) (msg : string) (c : checked_result R) :
    of_error e msg = Done c -> built R c
| built_convert (T R : Type) (conv : T -> R) (t : checked_result T) (c : checked_result R) :
    built T t -> convert conv t = Done c -> built R c.

End CheckedResult.
Import CheckedResult.

(* ------------------------------------------------------------------ *)
(** ** Exception policies and the effect monad *)

(** One call of an exception-policy hook: the fault kind whose hook is
    called and the message passed to it. *)
Record event : Type := hook_call { hook_kind : safe_numerics_error; hook_msg : string }.

(** A computation of the library: the hooks it has called so far, in
    order, and what it came to. *)
Definition M (A : Type) : Type := (list event * outcome A)%type.

Definition ret {A} (a : A) : M A := ([], Done a).

Definition bind {A B} (m : M A) (f : A -> M B) : M B :=
  match m with
  | (tr, Done a) => let (tr', o) := f a in (tr ++ tr', o)
  | (tr, Thrown) => (tr, Thrown)
  | (tr, AssertFailed) => (tr, AssertFailed)
  | (tr, Undefined) => (tr, Undefined)
  end.

Definition lift {A} (o : outcome A) : M A := ([], o).

Declare Scope safe_scope.
Notation "x <- m ;; k" := (bind m (fun x => k))
  (at level 61, m at next level, right associativity) : safe_scope.
Notation "m ;; k" := (bind m (fun _ => k))
  (at level 61, right associativity) : safe_scope.
Local Open Scope safe_scope.

Definition trace {A} (m : M A) : list event := fst m.
Definition result {A} (m : M A) : outcome A := snd m.

(** Modelled from the spec: the exception policies are external to the
    two headers; a policy provides a hook for every fault kind, and a hook
    either returns (it ignores the fault or records it) or does not (it
    throws or aborts).  [hook_returns e] tells which, for the hook that
    matches fault kind [e]. *)
Record policy_hooks : Type :=
  mk_policy_hooks { hook_returns : safe_numerics_error -> bool }.

(** Modelled from the spec: a strict policy, every hook of which
    throws. *)
Definition throw_exception := mk_policy_hooks (fun _ => false).

(** Modelled from the spec: an ignoring policy, every hook of which
    returns. *)
Definition ignore_exception := mk_policy_hooks (fun _ => true).

(** A call of the hook of [EP] for fault kind [e]; [EP::range_error(msg)]
    is [invoke EP range_error msg]. *)
Definition invoke (EP : policy_hooks) (e : safe_numerics_error) (msg : string)
  : M unit :=
  ([hook_call e msg], if hook_returns EP e then Done tt else Thrown).

(** Modelled from the spec: [dispatch<EP>()] is called by the operators
    but is not declared in [checked_result.hpp].  On [success] it does
    nothing; on a fault it calls the matching hook of the policy with the
    message, once, and returns when the hook returns. *)
Definition dispatch {R} (EP : policy_hooks) (r : checked_result R) : M unit :=
  if exception r
  then msg <- lift (to_msg r) ;; invoke EP (to_error r) msg
  else ret tt.

(* ------------------------------------------------------------------ *)
(** ** Types seen by the operators *)

(** A policy class is known by its name; [None] stands for [void]. *)
Definition policy : Type := string.

Definition policy_eqb (p q : option policy) : bool :=
  match p, q with
  | None, None => true
  | Some a, Some b => String.eqb a b
  | _, _ => false
  end.

Definition is_void (p : option policy) : bool :=
  match p with None => true | Some _ => false end.

(** The parameters of [safe_base<Stored, Min, Max, P, E>]. *)
Record safe_params : Type :=
  mk_safe_params {
    Stored : native_int;
    Min : Z;
    Max : Z;
    P : option policy;
    E : option policy }.

Inductive cpp_type : Type :=
| native (T : native_int)
| safe (s : safe_params).

(** Modelled from the spec: the trait [is_safe] is declared in
    [safe_base.hpp], which is not part of the sources at hand; it holds of
    the bounded types only. *)
Definition is_safe (T : cpp_type) : bool :=
  match T with native _ => false | safe _ => true end.

(** Modelled from the spec: the trait [base_type] of [safe_base.hpp]; [T]
    for a native integer, [Stored] for a bounded type. *)
Definition base_type (T : cpp_type) : native_int :=
  match T with native N => N | safe s => Stored s end.

(** Modelled from the spec: the trait [get_promotion_policy] of
    [safe_base.hpp]; a native integer carries the absent policy,
    [void]. *)
Definition get_promotion_policy (T : cpp_type) : option policy :=
  match T with native _ => None | safe s => P s end.

(** Modelled from the spec: the trait [get_exception_policy] of
    [safe_base.hpp]; a native integer carries the absent policy,
    [void]. *)
Definition get_exception_policy (T : cpp_type) : option policy :=
  match T with native _ => None | safe s => E s end.

(** [base_value(std::numeric_limits<T>::min())] and [...max()]: for a safe
    type the bounds [Min] and [Max], as the comment in [operator+] says. *)
Definition limits_min (T : cpp_type) : Z :=
  match T with native N => numeric_min N | safe s => Min s end.

Definition limits_max (T : cpp_type) : Z :=
  match T with native N => numeric_max N | safe s => Max s end.

(** An object of type [safe_base<...>]: its type and the member [m_t]. *)
Record safe_base : Type := mk_safe_base { params : safe_params; m_t : Z }.

(** An operand of an operator template: a native integer or a safe one. *)
Inductive operand : Type :=
| native_operand (T : native_int) (v : Z)
| safe_operand (s : safe_base).

Definition type_of (t : operand) : cpp_type :=
  match t with
  | native_operand T _ => native T
  | safe_operand s => safe (params s)
  end.

(** [base_value(t)]. *)
Definition base_value (t : operand) : Z :=
  match t with
  | native_operand _ v => v
  | safe_operand s => m_t s
  end.

(** The operand holds a value of its static range: a native integer one
    its type represents, a safe one a value within its bounds. *)
Definition in_static_range (t : operand) : Prop :=
  limits_min (type_of t) <= base_value t <= limits_max (type_of t).

(** The bounds of a safe type are values of its stored type, as the
    template parameters [Stored Min, Stored Max] are. *)
Definition well_formed (this : safe_params) : Prop :=
  representable (Stored this) (Min this) /\ representable (Stored this) (Max this).

(** The object holds a value within the bounds of its type. *)
Definition in_bounds (s : safe_base) : Prop :=
  Min (params s) <= m_t s <= Max (params s).

(** Two closed ranges have a value in common. *)
Definition overlap (this T : safe_params) : Prop :=
  exists x, Min this <= x <= Max this /\ Min T <= x <= Max T.

(* ------------------------------------------------------------------ *)
(** ** safe_compare *)

Module SafeCompare.

(** Modelled from the spec: [safe_compare.hpp] is not part of the sources
    at hand; [less_than] gives the mathematical ordering of the integer
    values whatever the signedness of the two sides. *)
Definition less_than (a b : Z) : bool := a <? b.

(** Modelled from the spec: [greater_than] of [safe_compare.hpp], the
    mathematical ordering. *)
Definition greater_than (a b : Z) : bool := b <? a.

(** Modelled from the spec: [equal] of [safe_compare.hpp], the equality
    of the integer values. *)
Definition equal (a b : Z) : bool := a =? b.

End SafeCompare.

(* ------------------------------------------------------------------ *)
(** ** Checked primitives *)

Module Checked.

(** Modelled from the spec: [checked.hpp] is not part of the sources at
    hand.  The test its add, subtract and multiply make on the true
    result [x]: [positive_overflow] when [x] is above the maximum of [R],
    [negative_overflow] when it is below the minimum, and the exact
    result otherwise. *)
Definition in_range (R : native_int) (msg : string) (x : Z) : checked_result Z :=
  if x >? numeric_max R then fault positive_overflow msg
  else if x <? numeric_min R then fault negative_overflow msg
  else of_value x.

(** Modelled from the spec: [checked::add<R>(t, u)]. *)
Definition add (R : native_int) (t u : Z) : checked_result Z :=
  in_range R "addition overflow" (t + u).

(** Modelled from the spec: [checked::subtract<R>(t, u)]. *)
Definition subtract (R : native_int) (t u : Z) : checked_result Z :=
  in_range R "subtraction overflow" (t - u).

(** Modelled from the spec: [checked::multiply<R>(t, u)]. *)
Definition multiply (R : native_int) (t u : Z) : checked_result Z :=
  in_range R "multiplication overflow" (t * u).

(** Modelled from the spec: [checked::divide<R>(t, u)] gives
    [divide_by_zero] when the divisor is 0, [positive_overflow] for the
    signed edge MIN / -1, and the exact (truncated) quotient otherwise. *)
Definition divide (R : native_int) (t u : Z) : checked_result Z :=
  if u =? 0 then fault divide_by_zero "divide by zero"
  else if is_signed R && (t =? numeric_min R) && (u =? -1)
       then fault positive_overflow "division overflow"
       else of_value (Z.quot t u).

(** Modelled from the spec: [checked::modulus<R>(t, u)] gives
    [divide_by_zero] when the divisor is 0, [positive_overflow] for the
    signed edge MIN % -1, and the exact remainder otherwise. *)
Definition modulus (R : native_int) (t u : Z) : checked_result Z :=
  if u =? 0 then fault divide_by_zero "modulus divide by zero"
  else if is_signed R && (t =? numeric_min R) && (u =? -1)
       then fault positive_overflow "modulus overflow"
       else of_value (Z.rem t u).

(** Modelled from the spec: the bitwise primitives are defined on
    non-negative operands and give [domain_error] otherwise. *)
Definition bitwise (f : Z -> Z -> Z) (R : native_int) (t u : Z) : checked_result Z :=
  if (t <? 0) || (u <? 0) then fault domain_error "bitwise operation on a negative value"
  else in_range R "bitwise result out of range" (f t u).

(** Modelled from the spec: [checked::bitwise_or<R>(t, u)]. *)
Definition bitwise_or := bitwise Z.lor.

(** Modelled from the spec: [checked::bitwise_and<R>(t, u)]. *)
Definition bitwise_and := bitwise Z.land.

(** Modelled from the spec: [checked::bitwise_xor<R>(t, u)]. *)
Definition bitwise_xor := bitwise Z.lxor.

(** Modelled from the spec: [checked::cast<R>(x)] gives
    [positive_overflow] or [negative_overflow] when [x] is not in the range
    of [R], and the value otherwise. *)
Definition cast (R : native_int) (x : Z) : checked_result Z :=
  in_range R "cast out of range" x.

(** Modelled from the spec: [checked::left_shift<R>(t, u)] gives
    [domain_error] when the shift amount is negative or not less than the
    width of [R] or when the operand is negative, [positive_overflow] when
    a set bit would be shifted beyond the range of [R], and the shifted
    value otherwise. *)
Definition left_shift (R : native_int) (t u : Z) : checked_result Z :=
  if (u <? 0) || (Z.pos (bits R) <=? u) || (t <? 0)
  then fault domain_error "shift out of domain"
  else if Z.shiftl t u >? numeric_max R
       then fault positive_overflow "left shift overflow"
       else of_value (Z.shiftl t u).

(** Modelled from the spec: [checked::right_shift<R>(t, u)] gives
    [domain_error] under the conditions of the left shift, and the
    shifted value otherwise. *)
Definition right_shift (R : native_int) (t u : Z) : checked_result Z :=
  if (u <? 0) || (Z.pos (bits R) <=? u) || (t <? 0)
  then fault domain_error "shift out of domain"
  else of_value (Z.shiftr t u).

End Checked.

(* ------------------------------------------------------------------ *)
(** ** Intervals *)

Module Interval.

(** Modelled from the spec: [interval<T>] of [interval.hpp], which is
    not part of the sources at hand: the closed range [{l, u}].  The
    endpoints are kept as mathematical integers. *)
Record interval : Type := mk_interval { l : Z; u : Z }.

(** [boost::logic::tribool]. *)
Inductive tribool : Set := tri_true | tri_false | tri_indeterminate.

Definition indeterminate (b : tribool) : bool :=
  match b with tri_indeterminate => true | _ => false end.

(** The contextual conversion of a tribool to [bool]: true only for the
    value [true]. *)
Definition tribool_to_bool (b : tribool) : bool :=
  match b with tri_true => true | _ => false end.

(** Modelled from the spec: [interval.hpp] is not part of the sources at
    hand.  [includes(other)] holds when [l <= other.l] and
    [other.u <= u]. *)
Definition includes (this other : interval) : bool :=
  (l this <=? l other) && (u other <=? u this).

(** Modelled from the spec: the three-valued ordering.  [I1 < I2] is
    [true] when [u1 < l2], [false] when [l1 > u2], and indeterminate
    otherwise; [>] is symmetric. *)
Definition lt (t u' : interval) : tribool :=
  if SafeCompare.less_than (u t) (l u') then tri_true
  else if SafeCompare.greater_than (l t) (u u') then tri_false
  else tri_indeterminate.

(** Modelled from the spec: [I1 > I2], symmetric to [<]: [true] when
    [l1 > u2], [false] when [u1 < l2], indeterminate otherwise. *)
Definition gt (t u' : interval) : tribool :=
  if SafeCompare.greater_than (l t) (u u') then tri_true
  else if SafeCompare.less_than (u t) (l u') then tri_false
  else tri_indeterminate.

(** The interval of two checked endpoints: the fault of the first
    endpoint that has one is passed on. *)
Definition of_endpoints (lo hi : checked_result Z) : checked_result interval :=
  match m_u lo, m_u hi with
  | m_r a, m_r b => of_value (mk_interval a b)
  | m_msg msg, _ => fault (m_e lo) msg
  | _, m_msg msg => fault (m_e hi) msg
  end.

(** Modelled from the spec: add is [{l1 + l2, u1 + u2}]; the faults are
    those of the checked primitive applied to the endpoints. *)
Definition add (R : native_int) (t u' : interval) : checked_result interval :=
  of_endpoints (Checked.add R (l t) (l u')) (Checked.add R (u t) (u u')).

(** Modelled from the spec: subtract is [{l1 - u2, u1 - l2}]; the faults
    are those of the checked primitive applied to the endpoints. *)
Definition subtract (R : native_int) (t u' : interval) : checked_result interval :=
  of_endpoints (Checked.subtract R (l t) (u u')) (Checked.subtract R (u t) (l u')).

(** The least and greatest of four checked values; the first fault among
    them otherwise. *)
Definition of_corners (a b c d : checked_result Z) : checked_result interval :=
  match m_u a, m_u b, m_u c, m_u d with
  | m_r x, m_r y, m_r z, m_r w =>
      of_value (mk_interval (Z.min (Z.min x y) (Z.min z w))
                            (Z.max (Z.max x y) (Z.max z w)))
  | m_msg msg, _, _, _ => fault (m_e a) msg
  | _, m_msg msg, _, _ => fault (m_e b) msg
  | _, _, m_msg msg, _ => fault (m_e c) msg
  | _, _, _, m_msg msg => fault (m_e d) msg
  end.

(** Modelled from the spec: multiply takes the minimum and the maximum
    over the four endpoint products, and faults when one of the products
    does. *)
Definition multiply (R : native_int) (t u' : interval) : checked_result interval :=
  of_corners (Checked.multiply R (l t) (l u')) (Checked.multiply R (l t) (u u'))
             (Checked.multiply R (u t) (l u')) (Checked.multiply R (u t) (u u')).

Definition contains_zero (i : interval) : bool := (l i <=? 0) && (0 <=? u i).

(** Modelled from the spec: divide faults with [divide_by_zero] when the
    divisor interval contains 0, and otherwise combines the endpoint
    quotients. *)
Definition divide (R : native_int) (t u' : interval) : checked_result interval :=
  if contains_zero u' then fault divide_by_zero "interval divisor includes zero"
  else of_corners (Checked.divide R (l t) (l u')) (Checked.divide R (l t) (u u'))
                  (Checked.divide R (u t) (l u')) (Checked.divide R (u t) (u u')).

(** Modelled from the spec: left_shift is [{l1 << l2, u1 << u2}] and
    faults as the checked primitive does on the endpoints. *)
Definition left_shift (R : native_int) (t u' : interval) : checked_result interval :=
  of_endpoints (Checked.left_shift R (l t) (l u')) (Checked.left_shift R (u t) (u u')).

(** Modelled from the spec: right_shift is [{l1 >> u2, u1 >> l2}] and
    faults as the checked primitive does on the endpoints. *)
Definition right_shift (R : native_int) (t u' : interval) : checked_result interval :=
  of_endpoints (Checked.right_shift R (l t) (u u')) (Checked.right_shift R (u t) (l u')).

End Interval.

(** The static interval of an operand type, as every operator forms it. *)
Definition static_interval (T : cpp_type) : Interval.interval :=
  Interval.mk_interval (limits_min T) (limits_max T).

(* ------------------------------------------------------------------ *)
(** ** Native arithmetic *)

(** The type [int], 32 bits wide. *)
Definition cpp_int : native_int := mk_native true 32.

(** Integral promotion: a type narrower than [int] becomes [int], which
    represents all of its values; a type as wide as [int] or wider is
    kept. *)
Definition promote (T : native_int) : native_int :=
  if (bits T <? bits cpp_int)%positive then cpp_int else T.

(** The value of a built-in arithmetic expression of type [C] whose
    mathematical result is [r]: reduced modulo [2^bits] when [C] is
    unsigned; [r] itself when [C] is signed and represents it, and
    undefined behaviour otherwise. *)
Definition native_result (C : native_int) (r : Z) : outcome Z :=
  if is_signed C
  then if (numeric_min C <=? r) && (r <=? numeric_max C) then Done r else Undefined
  else Done (r mod modulus C).

(** The built-in [+], [-] and [*] on two operands of type [R]: both are
    promoted and the operation is done in the promoted type, of which the
    result is. *)
Definition native_add (R : native_int) (x y : Z) : outcome Z :=
  native_result (promote R) (x + y).
Definition native_sub (R : native_int) (x y : Z) : outcome Z :=
  native_result (promote R) (x - y).
Definition native_mul (R : native_int) (x y : Z) : outcome Z :=
  native_result (promote R) (x * y).

(** The built-in [/] on two operands of type [R]: undefined for a zero
    divisor and for a quotient that the promoted type does not represent
    (the least value divided by -1). *)
Definition native_div (R : native_int) (x y : Z) : outcome Z :=
  if y =? 0 then Undefined else native_result (promote R) (Z.quot x y).

(** The built-in [%] on two operands already converted to the type [C] of
    the expression: undefined for a zero divisor and, in a signed type,
    for the least value and -1, whose quotient is not represented. *)
Definition native_rem (C : native_int) (x y : Z) : outcome Z :=
  if y =? 0 then Undefined
  else if is_signed C && (x =? numeric_min C) && (y =? -1) then Undefined
  else Done (Z.rem x y).

(** The type of a built-in binary expression on operands of types [A] and
    [B], by the usual arithmetic conversions: both are promoted; of two
    types of equal signedness the wider, otherwise the unsigned one unless
    the signed one is wider. *)
Definition common_type (A B : native_int) : native_int :=
  let A' := promote A in
  let B' := promote B in
  if Bool.eqb (is_signed A') (is_signed B')
  then (if (bits A' <? bits B')%positive then B' else A')
  else let su := if is_signed A' then (A', B') else (B', A') in
       if (bits (fst su) <=? bits (snd su))%positive then snd su else fst su.

(* ------------------------------------------------------------------ *)
(** ** Promotion policies *)

Module Promotion.

(** Modelled from the spec: the promotion policies are external to the
    two headers.  A policy has one type function per operator, each taking
    [(T, U, P, E)] and yielding the result type, and the fallible
    arithmetic [divide<R>] and [modulus<R>] of the checked path. *)
Record promotion_policy : Type :=
  mk_promotion_policy {
    addition_result : cpp_type -> cpp_type -> option policy -> option policy -> cpp_type;
    subtraction_result : cpp_type -> cpp_type -> option policy -> option policy -> cpp_type;
    multiplication_result : cpp_type -> cpp_type -> option policy -> option policy -> cpp_type;
    division_result : cpp_type -> cpp_type -> option policy -> option policy -> cpp_type;
    modulus_result : cpp_type -> cpp_type -> option policy -> option policy -> cpp_type;
    left_shift_result : cpp_type -> cpp_type -> option policy -> option policy -> cpp_type;
    right_shift_result : cpp_type -> cpp_type -> option policy -> option policy -> cpp_type;
    or_result : cpp_type -> cpp_type -> option policy -> option policy -> cpp_type;
    and_result : cpp_type -> cpp_type -> option policy -> option policy -> cpp_type;
    xor_result : cpp_type -> cpp_type -> option policy -> option policy -> cpp_type;
    divide : native_int -> Z -> Z -> checked_result Z;
    modulus : native_int -> Z -> Z -> checked_result Z }.

Definition type_function : Type :=
  promotion_policy -> cpp_type -> cpp_type -> option policy -> option policy -> cpp_type.

(** Modelled from the spec: the policy's fallible division and modulus
    come down to the checked primitives. *)
Definition checked_arithmetic (p : promotion_policy) : Prop :=
  (forall R t u, divide p R t u = Checked.divide R t u) /\
  (forall R t u, modulus p R t u = Checked.modulus R t u).

End Promotion.

(* ------------------------------------------------------------------ *)
(** ** common_policies<T, U> *)

Record policies : Type :=
  mk_policies {
    safe_type : cpp_type;
    promotion_policy : option policy;
    exception_policy : option policy }.

(** The condition of the second and third static assertion, on the
    policy [p] of [T] and the policy [q] of [U]: they are the same, or [p]
    is [void], or [q] is [void]. *)
Definition compatible (p q : option policy) : bool :=
  policy_eqb p q || is_void p || is_void q.

(** The three static assertions on the operand types, then the policies
    of the first operand that is a safe type. *)
Definition common_policies (T U : cpp_type) : option policies :=
  if negb (is_safe T || is_safe U) then None
  else if negb (compatible (get_promotion_policy T) (get_promotion_policy U)) then None
  else if negb (compatible (get_exception_policy T) (get_exception_policy U)) then None
  else
    let safe_type := if is_safe T then Some T
                     else if is_safe U then Some U else None in
    match safe_type with
    | None => None
    | Some st =>
        if negb (is_safe st) then None
        else Some (mk_policies st (get_promotion_policy st) (get_exception_policy st))
    end.

(* ------------------------------------------------------------------ *)
(** ** safe_base: validation, construction, assignment *)

(** The message of the range checks of construction and assignment. *)
Definition range_message : string := "Value out of range for this safe type".

(** [validate(t)]: neither [Max < t] nor [t < Min]. *)
Definition validate (this : safe_params) (t : Z) : bool :=
  negb (SafeCompare.less_than (Max this) t)
  && negb (SafeCompare.less_than t (Min this)).

Section WithPolicies.

(** The policy classes of the program, by name. *)
Variable promotion_policies : policy -> Promotion.promotion_policy.
Variable exception_policies : policy -> policy_hooks.

(** The class a policy parameter names; a member of [void] cannot be
    named. *)
Definition hooks (e : option policy) : option policy_hooks :=
  match e with None => None | Some n => Some (exception_policies n) end.

(** The run-time part of the converting constructor and of the
    assignment: the value is validated when this interval does not include
    the interval of the argument, [E::range_error] is called when the
    validation fails, and the member is set. *)
Definition assign_checked (EP : policy_hooks) (this : safe_params) (t : safe_base)
  : M safe_base :=
  let t_interval := Interval.mk_interval (Min (params t)) (Max (params t)) in
  let this_interval := Interval.mk_interval (Min this) (Max this) in
  (if negb (Interval.includes this_interval t_interval)
   then if negb (validate this (m_t t))
        then invoke EP range_error range_message
        else ret tt
   else ret tt) ;;
  ret (mk_safe_base this (static_cast (Stored this) (m_t t))).

(** The static assertion of both: the two intervals are not strictly
    ordered. *)
Definition convertible (this : safe_params) (T : safe_params) : bool :=
  let t_interval := Interval.mk_interval (Min T) (Max T) in
  let this_interval := Interval.mk_interval (Min this) (Max this) in
  Interval.indeterminate (Interval.lt t_interval this_interval).

(** [safe_base(const safe_base<T, MinT, MaxT, PT, ET> & t)]. *)
Definition construct (this : safe_params) (t : safe_base) : option (M safe_base) :=
  if negb (convertible this (params t)) then None
  else match hooks (E this) with
       | None => None
       | Some EP => Some (assign_checked EP this t)
       end.

(** [operator=(const safe_base<T, MinT, MaxT, PT, ET> & rhs)]; the value
    is the object after the assignment. *)
Definition assign (this : safe_base) (rhs : safe_base) : option (M safe_base) :=
  if negb (convertible (params this) (params rhs)) then None
  else match hooks (E (params this)) with
       | None => None
       | Some EP => Some (assign_checked EP (params this) rhs)
       end.

(** Modelled from the spec: the constructor from a native value is
    declared in [safe_base.hpp], which is not part of the sources at hand.
    The value is validated against [Min] and [Max], [E::range_error] is
    called when the validation fails, and the member is set. *)
Definition of_native (EP : policy_hooks) (this : safe_params) (v : Z) : M safe_base :=
  (if negb (validate this v)
   then invoke EP range_error range_message
   else ret tt) ;;
  ret (mk_safe_base this (static_cast (Stored this) v)).

(* ------------------------------------------------------------------ *)
(** ** Result types of the binary operators *)

(** [P::promotion_policy::template f<T, U, promotion_policy,
    exception_policy>::type], with [P] the common policies. *)
Definition result_of (f : Promotion.type_function) (T U : cpp_type) : option cpp_type :=
  match common_policies T U with
  | None => None
  | Some cp =>
      match promotion_policy cp with
      | None => None
      | Some p => Some (f (promotion_policies p) T U (promotion_policy cp) (exception_policy cp))
      end
  end.

Definition addition_result := result_of Promotion.addition_result.
Definition subtraction_result := result_of Promotion.subtraction_result.
Definition multiplication_result := result_of Promotion.multiplication_result.
Definition division_result := result_of Promotion.division_result.
Definition modulus_result := result_of Promotion.modulus_result.
Definition or_result := result_of Promotion.or_result.

(** What an operator template resolves when it is instantiated: the
    result type, which must be a safe type, the class of the common
    promotion policy, the hooks of the common exception policy, and the
    hooks of the result type's own policy, which its constructor uses. *)
Record instance : Type :=
  mk_instance {
    result_type : safe_params;
    promotion : Promotion.promotion_policy;
    exception_hooks : policy_hooks;
    result_hooks : policy_hooks }.

Definition result_base_type (i : instance) : native_int := Stored (result_type i).

Definition instantiate (result : cpp_type -> cpp_type -> option cpp_type)
  (T U : cpp_type) : option instance :=
  if negb (is_safe T || is_safe U) then None
  else match result T U, common_policies T U with
       | Some (safe RT), Some cp =>
           match promotion_policy cp, hooks (exception_policy cp), hooks (E RT) with
           | Some p, Some EP, Some EPR =>
               Some (mk_instance RT (promotion_policies p) EP EPR)
           | _, _, _ => None
           end
       | _, _ => None
       end.

(** [result_type(v)] for a native value [v]. *)
Definition wrap (i : instance) (v : Z) : M safe_base :=
  of_native (result_hooks i) (result_type i) v.

(** The checked path shared by the operators: the fallible result [r] is
    dispatched to the exception policy, then converted to the result base
    type and wrapped. *)
Definition deliver (i : instance) (r : checked_result Z) : M safe_base :=
  dispatch (exception_hooks i) r ;;
  v <- lift (to_R r) ;;
  wrap i (static_cast (result_base_type i) v).

(* ------------------------------------------------------------------ *)
(** ** Addition, subtraction, multiplication *)

(** The common shape of [operator+], [operator-] and [operator*]: the
    interval of the result is computed from the static intervals of the
    operands; when it has no fault the native operation is done on the
    operands converted to the result base type, otherwise the checked
    primitive is called. *)
Definition arithmetic_operator
  (result : cpp_type -> cpp_type -> option cpp_type)
  (interval_op : native_int -> Interval.interval -> Interval.interval
                 -> checked_result Interval.interval)
  (native_op : native_int -> Z -> Z -> outcome Z)
  (checked_op : native_int -> Z -> Z -> checked_result Z)
  (t u : operand) : option (M safe_base) :=
  match instantiate result (type_of t) (type_of u) with
  | None => None
  | Some i =>
      let R := result_base_type i in
      let t_interval := static_interval (type_of t) in
      let u_interval := static_interval (type_of u) in
      let r_interval := interval_op R t_interval u_interval in
      if no_exception r_interval
      then Some (v <- lift (native_op R (static_cast R (base_value t))
                                        (static_cast R (base_value u))) ;;
                 wrap i v)
      else Some (deliver i (checked_op R (base_value t) (base_value u)))
  end.

Definition operator_plus : operand -> operand -> option (M safe_base) :=
  arithmetic_operator addition_result Interval.add native_add Checked.add.

Definition operator_minus : operand -> operand -> option (M safe_base) :=
  arithmetic_operator subtraction_result Interval.subtract native_sub Checked.subtract.

Definition operator_times : operand -> operand -> option (M safe_base) :=
  arithmetic_operator multiplication_result Interval.multiply native_mul Checked.multiply.

(** The three operators by name, with what each is made of and the
    exact result it stands for. *)
Inductive arithmetic : Set := plus | minus | times.

Definition operator_of (op : arithmetic) : operand -> operand -> option (M safe_base) :=
  match op with
  | plus => operator_plus
  | minus => operator_minus
  | times => operator_times
  end.

Definition result_struct (op : arithmetic) : cpp_type -> cpp_type -> option cpp_type :=
  match op with
  | plus => addition_result
  | minus => subtraction_result
  | times => multiplication_result
  end.

Definition interval_of (op : arithmetic)
  : native_int -> Interval.interval -> Interval.interval -> checked_result Interval.interval :=
  match op with
  | plus => Interval.add
  | minus => Interval.subtract
  | times => Interval.multiply
  end.

Definition native_of (op : arithmetic) : native_int -> Z -> Z -> outcome Z :=
  match op with
  | plus => native_add
  | minus => native_sub
  | times => native_mul
  end.

Definition checked_of (op : arithmetic) : native_int -> Z -> Z -> checked_result Z :=
  match op with
  | plus => Checked.add
  | minus => Checked.subtract
  | times => Checked.multiply
  end.

(** The message of the checked primitive of each. *)
Definition overflow_message (op : arithmetic) : string :=
  match op with
  | plus => "addition overflow"
  | minus => "subtraction overflow"
  | times => "multiplication overflow"
  end.

(** The result of the operation on the mathematical integers. *)
Definition exact (op : arithmetic) (a b : Z) : Z :=
  match op with
  | plus => a + b
  | minus => a - b
  | times => a * b
  end.

(* ------------------------------------------------------------------ *)
(** ** Division and modulus *)

(** The condition under which [operator/] divides without a check: the
    result interval has no fault, and [u_interval.l <= 0 &&
    u_interval.u >= 0]. *)
Definition divide_unchecked (R : native_int) (t_interval u_interval : Interval.interval)
  : bool :=
  no_exception (Interval.divide R t_interval u_interval)
  && ((Interval.l u_interval <=? 0) && (Interval.u u_interval >=? 0)).

Definition operator_divide (t u : operand) : option (M safe_base) :=
  match instantiate division_result (type_of t) (type_of u) with
  | None => None
  | Some i =>
      let R := result_base_type i in
      let t_interval := static_interval (type_of t) in
      let u_interval := static_interval (type_of u) in
      if divide_unchecked R t_interval u_interval
      then Some (q <- lift (native_div R (static_cast R (base_value t))
                                         (static_cast R (base_value u))) ;;
                 wrap i q)
      else Some (deliver i (Promotion.divide (promotion i) R (base_value t) (base_value u)))
  end.

(** The condition under which [operator%] takes the remainder without a
    check: [u_interval.l > 0 || 0 > u_interval.u]. *)
Definition modulus_unchecked (u_interval : Interval.interval) : bool :=
  (Interval.l u_interval >? 0) || (0 >? Interval.u u_interval).

Definition operator_modulus (t u : operand) : option (M safe_base) :=
  match instantiate modulus_result (type_of t) (type_of u) with
  | None => None
  | Some i =>
      let u_interval := static_interval (type_of u) in
      let t_type := common_type (base_type (type_of t)) (base_type (type_of u)) in
      if modulus_unchecked u_interval
      then Some (r <- lift (native_rem t_type (static_cast t_type (base_value t))
                                              (static_cast t_type (base_value u))) ;;
                 wrap i r)
      else Some (deliver i (Promotion.modulus (promotion i) t_type (base_value t) (base_value u)))
  end.

(** The two ways through an operator. *)
Inductive path : Set := unchecked_path | checked_path.

Definition divide_path (R : native_int) (T U : cpp_type) : path :=
  if divide_unchecked R (static_interval T) (static_interval U)
  then unchecked_path else checked_path.

Definition modulus_path (U : cpp_type) : path :=
  if modulus_unchecked (static_interval U) then unchecked_path else checked_path.

(* ------------------------------------------------------------------ *)
(** ** Comparison *)

(** [operator||] of [boost::logic::tribool]. *)
Definition tribool_or (a b : Interval.tribool) : Interval.tribool :=
  match a, b with
  | Interval.tri_true, _ | _, Interval.tri_true => Interval.tri_true
  | Interval.tri_false, Interval.tri_false => Interval.tri_false
  | _, _ => Interval.tri_indeterminate
  end.

Definition operator_lt (lhs rhs : operand) : option bool :=
  if negb (is_safe (type_of lhs) || is_safe (type_of rhs)) then None
  else
    let t_interval := static_interval (type_of lhs) in
    let u_interval := static_interval (type_of rhs) in
    let r := Interval.lt t_interval u_interval in
    Some (if negb (Interval.indeterminate r)
          then false
          else SafeCompare.less_than (base_value lhs) (base_value rhs)).

Definition operator_gt (lhs rhs : operand) : option bool :=
  if negb (is_safe (type_of lhs) || is_safe (type_of rhs)) then None
  else
    let t_interval := static_interval (type_of lhs) in
    let u_interval := static_interval (type_of rhs) in
    let r := Interval.gt t_interval u_interval in
    Some (if negb (Interval.indeterminate r)
          then false
          else SafeCompare.greater_than (base_value lhs) (base_value rhs)).

Definition operator_eq (lhs rhs : operand) : option bool :=
  if negb (is_safe (type_of lhs) || is_safe (type_of rhs)) then None
  else
    let t_interval := static_interval (type_of lhs) in
    let u_interval := static_interval (type_of rhs) in
    Some (if Interval.tribool_to_bool
               (tribool_or (Interval.lt t_interval u_interval)
                           (Interval.gt t_interval u_interval))
          then false
          else SafeCompare.equal (base_value lhs) (base_value rhs)).

Definition operator_ne (lhs rhs : operand) : option bool :=
  option_map negb (operator_eq lhs rhs).

Definition operator_ge (lhs rhs : operand) : option bool :=
  option_map negb (operator_lt rhs lhs).

Definition operator_le (lhs rhs : operand) : option bool :=
  option_map negb (operator_gt rhs lhs).

(* ------------------------------------------------------------------ *)
(** ** Bitwise operators *)

(** The struct each bitwise operator names for its result type: the
    source has [typedef or_result<T, U> or_;], [typedef or_result<T, U>
    and_;] and [typedef or_result<T, U> xor_;]. *)
Definition bitwise_or_result_type (T U : cpp_type) : option cpp_type := or_result T U.
Definition bitwise_and_result_type (T U : cpp_type) : option cpp_type := or_result T U.
Definition bitwise_xor_result_type (T U : cpp_type) : option cpp_type := or_result T U.

(** [std::numeric_limits<T>::is_integer && ! is_signed]. *)
Definition unsigned_integer (T : cpp_type) : bool := negb (is_signed (base_type T)).

Definition bitwise_operator
  (result : cpp_type -> cpp_type -> option cpp_type)
  (checked_op : native_int -> Z -> Z -> checked_result Z)
  (t u : operand) : option (M safe_base) :=
  match instantiate result (type_of t) (type_of u) with
  | None => None
  | Some i =>
      if negb (unsigned_integer (type_of t) && unsigned_integer (type_of u)) then None
      else if is_signed (result_base_type i) then None
      else Some (deliver i (checked_op (result_base_type i) (base_value t) (base_value u)))
  end.

Definition operator_or := bitwise_operator bitwise_or_result_type Checked.bitwise_or.
Definition operator_and := bitwise_operator bitwise_and_result_type Checked.bitwise_and.
Definition operator_xor := bitwise_operator bitwise_xor_result_type Checked.bitwise_xor.

(** The result types the design's promotion-policy interface names for
    [&] and [^]: the policy's [and_result] and [xor_result]. *)
Definition spec_and_result_type := result_of Promotion.and_result.
Definition spec_xor_result_type := result_of Promotion.xor_result.

(* ------------------------------------------------------------------ *)
(** ** Stream extraction *)

Section Extraction.

(** The input stream of the standard library: its states, the formatted
    extraction [is >> value] into an object of a native type, which gives
    the state of the stream and the content of the object afterwards, and
    [is.fail()]. *)
Variable istream : Type.
Variable extract : native_int -> istream -> Z -> istream * Z.
Variable fail : istream -> bool.

(** The second template argument of a use or of a partial specialisation
    of [detail::Temp]. *)
Inductive Temp_argument : Set :=
| argument_void
| argument_enable_if (condition : bool).

(** [std::is_same<T, signed char>::value || std::is_same<T, unsigned
    char>::value]. *)
Definition is_char (T : native_int) : bool := (bits T =? 8)%positive.

(** Whether the partial specialisation of [detail::Temp] is chosen for
    [Temp<T, Enable>]: its second argument is the class
    [std::enable_if<...>] itself, not its member [type], so it is chosen
    only when [Enable] is that very class. *)
Definition Temp_specialised (T : native_int) (Enable : Temp_argument) : bool :=
  match Enable with
  | argument_void => false
  | argument_enable_if c => Bool.eqb c (is_char T)
  end.

(** The type of the member [value] of [detail::Temp<T>], that is of
    [Temp<T, void>]: [int] in the partial specialisation, [T] in the
    primary template. *)
Definition Temp (T : native_int) : native_int :=
  if Temp_specialised T argument_void then cpp_int else T.

(** [operator>>(std::istream & is, safe_base<T, Min, Max, P, E> & t)];
    [indeterminate] is the content of the uninitialised [tx.value].  The
    statement [t = tx.value] converts the native value with the
    constructor of the type, then copies the member. *)
Definition operator_extract (indeterminate : Z) (ins : istream) (t : safe_base)
  : option (M (istream * safe_base)) :=
  match hooks (E (params t)) with
  | None => None
  | Some EP =>
      let tx := extract (Temp (Stored (params t))) ins indeterminate in
      Some ((if fail (fst tx)
             then invoke EP range_error "error in file input"
             else ret tt) ;;
            tmp <- of_native EP (params t) (snd tx) ;;
            ret (fst tx, mk_safe_base (params t) (m_t tmp)))
  end.

End Extraction.

(* ------------------------------------------------------------------ *)
(** ** The cast operator *)

(** [operator R() const], for a native [R]: the member is cast with
    [checked::cast<R>]; when the cast has a fault the carrier is passed to
    [E::range_error], which takes its message; then the carrier is
    converted to [R]. *)
Definition operator_cast (R : native_int) (s : safe_base) : option (M Z) :=
  match hooks (E (params s)) with
  | None => None
  | Some EP =>
      let r := Checked.cast R (m_t s) in
      Some ((if negb (no_exception r)
             then msg <- lift (to_msg r) ;; invoke EP range_error msg
             else ret tt) ;;
            lift (to_R r))
  end.

(* ------------------------------------------------------------------ *)
(** ** Shift operators *)

Definition left_shift_result := result_of Promotion.left_shift_result.
Definition right_shift_result := result_of Promotion.right_shift_result.

(** A call that returned, or one that was still calling when the fuel
    ran out. *)
Inductive run (A : Type) : Type :=
| returned (a : A)
| out_of_fuel.
Arguments returned {A} a.
Arguments out_of_fuel {A}.

(** The common shape of [operator<<] and [operator>>] on integers.  When
    the interval of the result has no fault the operator returns
    [result_type(t << u)]: the operator applied to the operands [t] and
    [u] themselves, which is this operator again, its result copied.
    Otherwise the checked primitive is called.  [fuel] bounds the depth of
    the calls. *)
Fixpoint shift_operator
  (result : cpp_type -> cpp_type -> option cpp_type)
  (interval_op : native_int -> Interval.interval -> Interval.interval
                 -> checked_result Interval.interval)
  (checked_op : native_int -> Z -> Z -> checked_result Z)
  (fuel : nat) (t u : operand) : option (run (M safe_base)) :=
  match instantiate result (type_of t) (type_of u) with
  | None => None
  | Some i =>
      match fuel with
      | O => Some out_of_fuel
      | S fuel' =>
          let R := result_base_type i in
          let t_interval := static_interval (type_of t) in
          let u_interval := static_interval (type_of u) in
          let r_interval := interval_op R t_interval u_interval in
          if no_exception r_interval
          then shift_operator result interval_op checked_op fuel' t u
          else Some (returned (deliver i (checked_op R (base_value t) (base_value u))))
      end
  end.

Definition operator_left_shift : nat -> operand -> operand -> option (run (M safe_base)) :=
  shift_operator left_shift_result Interval.left_shift Checked.left_shift.

Definition operator_right_shift : nat -> operand -> operand -> option (run (M safe_base)) :=
  shift_operator right_shift_result Interval.right_shift Checked.right_shift.

(** The two shift operators by name. *)
Inductive shift : Set := shift_left | shift_right.

Definition shift_operator_of (sh : shift)
  : nat -> operand -> operand -> option (run (M safe_base)) :=
  match sh with
  | shift_left => operator_left_shift
  | shift_right => operator_right_shift
  end.

Definition shift_result_struct (sh : shift) : cpp_type -> cpp_type -> option cpp_type :=
  match sh with
  | shift_left => left_shift_result
  | shift_right => right_shift_result
  end.

Definition shift_interval_of (sh : shift)
  : native_int -> Interval.interval -> Interval.interval -> checked_result Interval.interval :=
  match sh with
  | shift_left => Interval.left_shift
  | shift_right => Interval.right_shift
  end.

Definition shift_checked_of (sh : shift) : native_int -> Z -> Z -> checked_result Z :=
  match sh with
  | shift_left => Checked.left_shift
  | shift_right => Checked.right_shift
  end.

(** The three bitwise operators by name, with the exact result each
    stands for. *)
Inductive bitwise : Set := bit_or | bit_and | bit_xor.

Definition bitwise_operator_of (op : bitwise) : operand -> operand -> option (M safe_base) :=
  match op with
  | bit_or => operator_or
  | bit_and => operator_and
  | bit_xor => operator_xor
  end.

Definition bitwise_exact (op : bitwise) : Z -> Z -> Z :=
  match op with
  | bit_or => Z.lor
  | bit_and => Z.land
  | bit_xor => Z.lxor
  end.

End WithPolicies.

Arguments returned {A} a.
Arguments out_of_fuel {A}.
Arguments result_type : clear implicits.
Arguments promotion : clear implicits.
Arguments exception_hooks : clear implicits.
Arguments result_hooks : clear implicits.

(* ------------------------------------------------------------------ *)
(** ** Policy classes and types used in the examples *)

Module Examples.

(** The type of the representative operand, with the policies given. *)
Definition retag (T : cpp_type) (p e : option policy) : cpp_type :=
  match T with
  | safe s => safe (mk_safe_params (Stored s) (Min s) (Max s) p e)
  | native N => native N
  end.

(** A promotion that keeps the range of the first safe operand. *)
Definition same_range (T U : cpp_type) (p e : option policy) : cpp_type :=
  retag (if is_safe T then T else U) p e.

(** A promotion that widens to the whole range of [R]. *)
Definition widen (R : native_int) (T U : cpp_type) (p e : option policy) : cpp_type :=
  safe (mk_safe_params R (numeric_min R) (numeric_max R) p e).

(** A promotion to the range [[lo, hi]] of [R]. *)
Definition ranged (R : native_int) (lo hi : Z) (T U : cpp_type) (p e : option policy)
  : cpp_type :=
  safe (mk_safe_params R lo hi p e).

Definition uniform (f : cpp_type -> cpp_type -> option policy -> option policy -> cpp_type)
  : Promotion.promotion_policy :=
  Promotion.mk_promotion_policy f f f f f f f f f f Checked.divide Checked.modulus.

(** A policy whose type functions for [|], [&] and [^] differ. *)
Definition bitwise_aware : Promotion.promotion_policy :=
  Promotion.mk_promotion_policy
    (widen uint32) (widen uint32) (widen uint32) (widen uint32) (widen uint32)
    (widen uint32) (widen uint32)
    (ranged uint8 0 255) (ranged uint8 0 15) (ranged uint8 0 127)
    Checked.divide Checked.modulus.

Definition promotions (name : policy) : Promotion.promotion_policy :=
  if String.eqb name "widen" then uniform (widen int32)
  else if String.eqb name "bitwise" then bitwise_aware
  else uniform same_range.

Definition exceptions (name : policy) : policy_hooks :=
  if String.eqb name "ignore" then ignore_exception else throw_exception.

(** [safe_base<R, lo, hi, same, e>] and an object of it. *)
Definition range_of (R : native_int) (lo hi : Z) (e : string) : safe_params :=
  mk_safe_params R lo hi (Some "same"%string) (Some e).

(** [safe_base<R, lo, hi, widen, throw>] and an object of it. *)
Definition widening (R : native_int) (lo hi v : Z) : safe_base :=
  mk_safe_base (mk_safe_params R lo hi (Some "widen"%string) (Some "throw"%string)) v.

Definition strict (R : native_int) (lo hi v : Z) : safe_base :=
  mk_safe_base (range_of R lo hi "throw") v.

Definition lenient (R : native_int) (lo hi v : Z) : safe_base :=
  mk_safe_base (range_of R lo hi "ignore") v.

(** A stream that is not in good state when the extraction is entered:
    the sentry of the extraction fails, nothing is read, the object keeps
    its content, and [fail()] holds afterwards. *)
Inductive failed_stream : Set := failed.

Definition failed_extract (T : native_int) (ins : failed_stream) (value : Z)
  : failed_stream * Z := (ins, value).

Definition failed_fail (ins : failed_stream) : bool := true.

End Examples.

(* ================================================================== *)
(** * Properties *)

(* ------------------------------------------------------------------ *)
(** ** Native integers *)

Lemma modulus_pos T : 0 < modulus T.
Proof. unfold modulus. apply Z.pow_pos_nonneg; lia. Qed.

Lemma half_pos T : 0 < half T.
Proof. unfold half. apply Z.pow_pos_nonneg; lia. Qed.

Lemma modulus_half T : modulus T = 2 * half T.
Proof.
  unfold modulus, half.
  replace (Z.pos (bits T)) with (Z.succ (Z.pos (bits T) - 1)) at 1 by lia.
  rewrite Z.pow_succ_r; lia.
Qed.

Lemma limits_ordered T : numeric_min T <= numeric_max T.
Proof.
  pose proof (half_pos T). pose proof (modulus_half T).
  unfold numeric_min, numeric_max. destruct (is_signed T); lia.
Qed.

(** A value the type represents is unchanged by the conversion. *)
Lemma static_cast_id T x : representable T x -> static_cast T x = x.
Proof.
  pose proof (half_pos T). pose proof (modulus_half T).
  unfold representable, numeric_min, numeric_max, static_cast.
  destruct (is_signed T); intros Hx.
  - rewrite Z.mod_small; lia.
  - apply Z.mod_small; lia.
Qed.

(** The conversion only ever moves a value by a multiple of the modulus. *)
Lemma static_cast_congr T x : exists k, static_cast T x = x + k * modulus T.
Proof.
  pose proof (modulus_pos T) as Hm. unfold static_cast.
  destruct (is_signed T).
  - exists (- ((x + half T) / modulus T)).
    pose proof (Z.div_mod (x + half T) (modulus T)). lia.
  - exists (- (x / modulus T)).
    pose proof (Z.div_mod x (modulus T)). lia.
Qed.

Lemma static_cast_plus_multiple T x k :
  static_cast T (x + k * modulus T) = static_cast T x.
Proof.
  pose proof (modulus_pos T) as Hm. unfold static_cast.
  destruct (is_signed T).
  - replace (x + k * modulus T + half T) with (x + half T + k * modulus T) by lia.
    rewrite Z.mod_add by lia. reflexivity.
  - rewrite Z.mod_add by lia. reflexivity.
Qed.

Lemma error_eqb_eq a b : error_eqb a b = true <-> a = b.
Proof. destruct a, b; simpl; split; intros H; try reflexivity; discriminate. Qed.


(* ------------------------------------------------------------------ *)
(** ** The effect monad *)

Lemma bind_ret_l {A B} (a : A) (f : A -> M B) : bind (ret a) f = f a.
Proof. unfold bind, ret. destruct (f a) as [tr o]. reflexivity. Qed.

Lemma bind_ret_r {A} (m : M A) : bind m ret = m.
Proof.
  destruct m as [tr [a| | |]]; simpl; try reflexivity.
  now rewrite app_nil_r.
Qed.

Lemma bind_assoc {A B C} (m : M A) (f : A -> M B) (g : B -> M C) :
  bind (bind m f) g = bind m (fun a => bind (f a) g).
Proof.
  destruct m as [tr [a| | |]]; simpl; try reflexivity.
  destruct (f a) as [tr1 [b| | |]]; simpl; try reflexivity.
  destruct (g b) as [tr2 o]. now rewrite app_assoc.
Qed.

Lemma exception_no_exception {R} (c : checked_result R) :
  exception c = negb (no_exception c).
Proof. reflexivity. Qed.

(* ------------------------------------------------------------------ *)
(** ** checked_result *)

Lemma to_R_of_fault_carrier {R} (c : checked_result R) :
  exception c = true -> to_R c = AssertFailed.
Proof. unfold to_R. intros ->. reflexivity. Qed.

Lemma to_msg_of_success_carrier {R} (c : checked_result R) :
  exception c = false -> to_msg c = AssertFailed.
Proof. unfold to_msg. intros ->. reflexivity. Qed.

Lemma to_R_done {R} (c : checked_result R) (r : R) :
  to_R c = Done r -> m_e c = success /\ m_u c = m_r r.
Proof.
  unfold to_R, exception. destruct c as [e [x|msg]]; simpl.
  - destruct e; simpl; intros H; inversion H; auto.
  - destruct e; simpl; discriminate.
Qed.

Lemma to_msg_done {R} (c : checked_result R) (msg : string) :
  to_msg c = Done msg -> m_e c <> success /\ m_u c = m_msg msg.
Proof.
  unfold to_msg, exception. destruct c as [e [x|m]]; simpl.
  - destruct e; simpl; discriminate.
  - destruct e; simpl; intros H; inversion H; split; congruence.
Qed.

(** C8. In [checked_result<R>] the value slot is observable only when the
    fault is [success] and the message slot only otherwise.  A carrier
    built from an [R] is a success carrier and converts back to that [R];
    the (fault, message) constructor called with [success] fails its
    assertion, and with any other kind builds a fault carrier that holds
    the message; converting a fault carrier to [R] fails an assertion, and
    so does converting a success carrier to a message.  Whenever a
    conversion to [R] yields a value the kind is [success], and whenever a
    conversion to a message yields one the kind is not [success].  The
    copy assignment (and the default constructor) is deleted, so a carrier
    is never changed after its construction. *)
Theorem checked_result_slots :
  (forall (R : Type) (r : R),
      m_e (of_value r) = success /\ exception (of_value r) = false /\
      to_R (of_value r) = Done r /\ to_msg (of_value r) = AssertFailed) /\
  (forall (R : Type) (msg : string), @of_error R success msg = AssertFailed) /\
  (forall (R : Type) (e : safe_numerics_error) (msg : string),
      e <> success ->
      exists c : checked_result R,
        of_error e msg = Done c /\ m_e c = e /\ exception c = true /\
        to_msg c = Done msg /\ to_R c = AssertFailed) /\
  (forall (R : Type) (c : checked_result R),
      exception c = true -> to_R c = AssertFailed) /\
  (forall (R : Type) (c : checked_result R),
      exception c = false -> to_msg c = AssertFailed) /\
  (forall (R : Type) (c : checked_result R) (r : R),
      to_R c = Done r -> m_e c = success) /\
  (forall (R : Type) (c : checked_result R) (msg : string),
      to_msg c = Done msg -> m_e c <> success) /\
  (forall m : special_member,
      deleted m = true <-> m = copy_assignment \/ m = default_constructor).
Proof.
  repeat match goal with |- _ /\ _ => split end.
  - intros R r. repeat split.
  - reflexivity.
  - intros R e msg He. exists (fault e msg).
    destruct e; try congruence; repeat split.
  - intros R c. apply to_R_of_fault_carrier.
  - intros R c. apply to_msg_of_success_carrier.
  - intros R c r H. now apply to_R_done in H.
  - intros R c msg H. now apply to_msg_done in H.
  - intros m. destruct m; simpl; split; intros H; try discriminate; auto;
      destruct H as [H|H]; discriminate.
Qed.

(* ------------------------------------------------------------------ *)
(** ** Comparison *)

Lemma lt_indeterminate_iff (t u : Interval.interval) :
  Interval.indeterminate (Interval.lt t u) = true <->
  Interval.l u <= Interval.u t /\ Interval.l t <= Interval.u u.
Proof.
  unfold Interval.lt, SafeCompare.less_than, SafeCompare.greater_than.
  destruct (Z.ltb_spec (Interval.u t) (Interval.l u));
    destruct (Z.ltb_spec (Interval.u u) (Interval.l t)); simpl;
    split; intros H1; try discriminate; try lia; reflexivity.
Qed.

(** On overlapping static intervals [operator<] is the comparison of the
    values. *)
Lemma operator_lt_overlapping (lhs rhs : operand) :
  is_safe (type_of lhs) || is_safe (type_of rhs) = true ->
  Interval.indeterminate
    (Interval.lt (static_interval (type_of lhs)) (static_interval (type_of rhs))) = true ->
  operator_lt lhs rhs = Some (base_value lhs <? base_value rhs).
Proof.
  intros Hs Hi. unfold operator_lt. rewrite Hs, Hi. reflexivity.
Qed.

(** On strictly ordered static intervals [operator<] is [false], in
    either order. *)
Lemma operator_lt_determinate (lhs rhs : operand) :
  is_safe (type_of lhs) || is_safe (type_of rhs) = true ->
  Interval.indeterminate
    (Interval.lt (static_interval (type_of lhs)) (static_interval (type_of rhs))) = false ->
  operator_lt lhs rhs = Some false.
Proof.
  intros Hs Hi. unfold operator_lt. rewrite Hs, Hi. reflexivity.
Qed.

Lemma operator_gt_determinate (lhs rhs : operand) :
  is_safe (type_of lhs) || is_safe (type_of rhs) = true ->
  Interval.indeterminate
    (Interval.gt (static_interval (type_of lhs)) (static_interval (type_of rhs))) = false ->
  operator_gt lhs rhs = Some false.
Proof.
  intros Hs Hi. unfold operator_gt. rewrite Hs, Hi. reflexivity.
Qed.

(** With operands that hold values of their static ranges, [operator<]
    is the comparison of the values unless the static interval of the
    left operand lies strictly below that of the right one. *)
Lemma operator_lt_correct_unless_below (lhs rhs : operand) :
  is_safe (type_of lhs) || is_safe (type_of rhs) = true ->
  in_static_range lhs -> in_static_range rhs ->
  Interval.lt (static_interval (type_of lhs)) (static_interval (type_of rhs))
    <> Interval.tri_true ->
  operator_lt lhs rhs = Some (base_value lhs <? base_value rhs).
Proof.
  intros Hs [Hl1 Hl2] [Hr1 Hr2] Hne. unfold operator_lt. rewrite Hs. simpl.
  revert Hne. unfold Interval.lt, SafeCompare.less_than, SafeCompare.greater_than.
  simpl.
  destruct (Z.ltb_spec (limits_max (type_of lhs)) (limits_min (type_of rhs)));
    [congruence|].
  destruct (Z.ltb_spec (limits_max (type_of rhs)) (limits_min (type_of lhs)));
    simpl; intros _; [|reflexivity].
  f_equal. symmetry. apply Z.ltb_ge. lia.
Qed.

(** In that remaining case the left value is the lesser one and the
    operator is [false]. *)
Lemma operator_lt_wrong_when_below (lhs rhs : operand) :
  is_safe (type_of lhs) || is_safe (type_of rhs) = true ->
  in_static_range lhs -> in_static_range rhs ->
  Interval.lt (static_interval (type_of lhs)) (static_interval (type_of rhs))
    = Interval.tri_true ->
  base_value lhs < base_value rhs /\ operator_lt lhs rhs = Some false.
Proof.
  intros Hs [Hl1 Hl2] [Hr1 Hr2] Hlt. split.
  - revert Hlt. unfold Interval.lt, SafeCompare.less_than, SafeCompare.greater_than.
    simpl.
    destruct (Z.ltb_spec (limits_max (type_of lhs)) (limits_min (type_of rhs)));
      [intros _; lia|].
    destruct (_ <? _); discriminate.
  - apply operator_lt_determinate; [exact Hs|]. now rewrite Hlt.
Qed.

(** C2. [operator<] on [safe<0,10>(5)] and [safe<100,200>(150)]: the
    static intervals are strictly separated, the left value is the lesser
    one, and the operator returns [false]; [operator>] on the two operands
    in the other order returns [false] as well.  Whenever the static
    intervals are strictly ordered, in either direction, both operators
    return [false]. *)
Theorem operator_lt_separated_is_false :
  Interval.lt (static_interval (type_of (safe_operand (Examples.strict uint8 0 10 5))))
              (static_interval (type_of (safe_operand (Examples.strict uint8 100 200 150))))
    = Interval.tri_true /\
  base_value (safe_operand (Examples.strict uint8 0 10 5))
    < base_value (safe_operand (Examples.strict uint8 100 200 150)) /\
  operator_lt (safe_operand (Examples.strict uint8 0 10 5))
              (safe_operand (Examples.strict uint8 100 200 150)) = Some false /\
  operator_gt (safe_operand (Examples.strict uint8 100 200 150))
              (safe_operand (Examples.strict uint8 0 10 5)) = Some false.
Proof. repeat split. Qed.

(* ------------------------------------------------------------------ *)
(** ** Division and modulus *)

Lemma divide_faults_on_zero_interval (R : native_int) (t u : Interval.interval) :
  Interval.contains_zero u = true ->
  no_exception (Interval.divide R t u) = false.
Proof. intros H. unfold Interval.divide. rewrite H. reflexivity. Qed.

Lemma contains_zero_guard (u : Interval.interval) :
  (Interval.l u <=? 0) && (Interval.u u >=? 0) = Interval.contains_zero u.
Proof.
  unfold Interval.contains_zero. f_equal.
  rewrite Z.geb_leb. reflexivity.
Qed.

(** With the interval division of the design, the two conjuncts of the
    guard of [operator/] exclude each other. *)
Lemma divide_unchecked_never (R : native_int) (t u : Interval.interval) :
  divide_unchecked R t u = false.
Proof.
  unfold divide_unchecked. rewrite contains_zero_guard.
  destruct (Interval.contains_zero u) eqn:Hz.
  - rewrite divide_faults_on_zero_interval by exact Hz. reflexivity.
  - apply andb_false_r.
Qed.

(** [operator%] takes the remainder unchecked exactly when the static
    interval of the divisor excludes zero. *)
Lemma modulus_unchecked_iff (U : cpp_type) :
  modulus_path U = unchecked_path <->
  Interval.contains_zero (static_interval U) = false.
Proof.
  unfold modulus_path, modulus_unchecked, Interval.contains_zero.
  rewrite !Z.gtb_ltb.
  destruct (Z.ltb_spec 0 (Interval.l (static_interval U)));
    destruct (Z.ltb_spec (Interval.u (static_interval U)) 0);
    destruct (Z.leb_spec (Interval.l (static_interval U)) 0);
    destruct (Z.leb_spec 0 (Interval.u (static_interval U)));
    simpl; split; intros H3; try reflexivity; try discriminate; lia.
Qed.

Lemma in_static_range_zero (u : operand) :
  in_static_range u -> base_value u = 0 ->
  Interval.contains_zero (static_interval (type_of u)) = true.
Proof.
  unfold in_static_range, Interval.contains_zero, static_interval. simpl.
  intros [H1 H2] H0. rewrite H0 in *.
  apply andb_true_intro. split; apply Z.leb_le; assumption.
Qed.

Lemma deliver_fault (i : instance) (e : safe_numerics_error) (msg : string) :
  e <> success ->
  deliver i (fault e msg)
  = ([hook_call e msg],
     if hook_returns (exception_hooks i) e then AssertFailed else Thrown).
Proof.
  intros He. unfold deliver, dispatch, invoke.
  destruct e; try congruence; simpl;
    destruct (hook_returns (exception_hooks i) _); reflexivity.
Qed.

(** A divisor that is zero at run time, in an operand that holds a value
    of its static range: both operators take the checked path, the
    primitive returns [divide_by_zero], and the hook for it is called. *)
Lemma zero_divisor_faults
  (pp : policy -> Promotion.promotion_policy) (ep : policy -> policy_hooks)
  (t u : operand) :
  in_static_range u -> base_value u = 0 ->
  (forall i, instantiate pp ep (division_result pp) (type_of t) (type_of u) = Some i ->
             Promotion.checked_arithmetic (promotion i) ->
             exists msg,
               operator_divide pp ep t u
               = Some ([hook_call divide_by_zero msg],
                       if hook_returns (exception_hooks i) divide_by_zero
                       then AssertFailed else Thrown)) /\
  (forall i, instantiate pp ep (modulus_result pp) (type_of t) (type_of u) = Some i ->
             Promotion.checked_arithmetic (promotion i) ->
             exists msg,
               operator_modulus pp ep t u
               = Some ([hook_call divide_by_zero msg],
                       if hook_returns (exception_hooks i) divide_by_zero
                       then AssertFailed else Thrown)).
Proof.
  intros Hr H0. pose proof (in_static_range_zero u Hr H0) as Hz. split.
  - intros i Hi [Hd _]. unfold operator_divide. rewrite Hi.
    rewrite divide_unchecked_never, Hd, H0.
    eexists. unfold Checked.divide. simpl (0 =? 0).
    cbv iota. rewrite deliver_fault by discriminate. reflexivity.
  - intros i Hi [_ Hm]. unfold operator_modulus. rewrite Hi.
    assert (Hp : modulus_unchecked (static_interval (type_of u)) = false).
    { destruct (modulus_unchecked (static_interval (type_of u))) eqn:Hmu; [|reflexivity].
      assert (modulus_path (type_of u) = unchecked_path) as Hpath
          by (unfold modulus_path; now rewrite Hmu).
      apply modulus_unchecked_iff in Hpath. congruence. }
    rewrite Hp, Hm, H0.
    eexists. unfold Checked.modulus. simpl (0 =? 0).
    cbv iota. rewrite deliver_fault by discriminate. reflexivity.
Qed.

(** C1. [operator/] on [safe<1,10>] and [safe<1,3>]: the static interval
    of the divisor excludes zero and the interval of the quotient has no
    fault, yet the operator takes the checked path; indeed the guard of
    [operator/] asks for a divisor interval that contains zero, so that
    with the interval division of the design the unchecked path is taken
    for no pair of operand types.  [operator%] takes the unchecked path
    exactly when the divisor interval excludes zero. *)
Theorem operator_divide_guard_inverted :
  Interval.contains_zero (static_interval (safe (Examples.range_of int32 1 3 "throw"))) = false /\
  no_exception (Interval.divide int32
                  (static_interval (safe (Examples.range_of int32 1 10 "throw")))
                  (static_interval (safe (Examples.range_of int32 1 3 "throw")))) = true /\
  divide_path int32 (safe (Examples.range_of int32 1 10 "throw"))
                    (safe (Examples.range_of int32 1 3 "throw")) = checked_path /\
  (forall (R : native_int) (T U : cpp_type), divide_path R T U = checked_path) /\
  (forall U : cpp_type,
      modulus_path U = unchecked_path <->
      Interval.contains_zero (static_interval U) = false).
Proof.
  repeat match goal with |- _ /\ _ => split end; try reflexivity.
  - intros R T U. unfold divide_path. now rewrite divide_unchecked_never.
  - apply modulus_unchecked_iff.
Qed.

(* ------------------------------------------------------------------ *)
(** ** Checked primitives and interval analysis *)

Lemma in_range_cases (R : native_int) (msg : string) (x : Z) :
  (representable R x /\ Checked.in_range R msg x = of_value x) \/
  (numeric_max R < x /\ Checked.in_range R msg x = fault positive_overflow msg) \/
  (x < numeric_min R /\ Checked.in_range R msg x = fault negative_overflow msg).
Proof.
  unfold Checked.in_range, representable. rewrite Z.gtb_ltb.
  destruct (Z.ltb_spec (numeric_max R) x); [right; left; split; [lia|reflexivity]|].
  destruct (Z.ltb_spec x (numeric_min R)); [right; right; split; [lia|reflexivity]|].
  left. split; [lia|reflexivity].
Qed.

Lemma in_range_no_exception (R : native_int) (msg : string) (x : Z) :
  no_exception (Checked.in_range R msg x) = true <-> representable R x.
Proof.
  pose proof (limits_ordered R).
  destruct (in_range_cases R msg x) as [[Hx ->]|[[Hx ->]|[Hx ->]]];
    unfold representable; simpl; split; intros H1; try discriminate; try lia; auto.
Qed.

Ltac split_in_range R msg x :=
  let Hx := fresh "Hx" in
  let He := fresh "He" in
  destruct (in_range_cases R msg x) as [[Hx He]|[[Hx He]|[Hx He]]];
  rewrite He; simpl; try discriminate.

Lemma of_endpoints_ok (R : native_int) (m1 m2 : string) (x y : Z) :
  no_exception (Interval.of_endpoints (Checked.in_range R m1 x) (Checked.in_range R m2 y)) = true ->
  representable R x /\ representable R y.
Proof.
  unfold Interval.of_endpoints.
  split_in_range R m1 x; split_in_range R m2 y. auto.
Qed.

Lemma of_corners_ok (R : native_int) (m1 m2 m3 m4 : string) (x y z w : Z) :
  no_exception (Interval.of_corners (Checked.in_range R m1 x) (Checked.in_range R m2 y)
                                    (Checked.in_range R m3 z) (Checked.in_range R m4 w)) = true ->
  representable R x /\ representable R y /\ representable R z /\ representable R w.
Proof.
  unfold Interval.of_corners.
  split_in_range R m1 x; split_in_range R m2 y;
    split_in_range R m3 z; split_in_range R m4 w. auto.
Qed.

(** A product of two values lies between the least and the greatest of
    the four products of the endpoints of their intervals. *)
Lemma product_between_corners (l1 u1 l2 u2 a b lo hi : Z) :
  l1 <= a <= u1 -> l2 <= b <= u2 ->
  lo <= l1 * l2 <= hi -> lo <= l1 * u2 <= hi ->
  lo <= u1 * l2 <= hi -> lo <= u1 * u2 <= hi ->
  lo <= a * b <= hi.
Proof.
  intros Ha Hb H1 H2 H3 H4.
  assert (lo <= l1 * b <= hi) by (destruct (Z.le_ge_cases 0 l1); nia).
  assert (lo <= u1 * b <= hi) by (destruct (Z.le_ge_cases 0 u1); nia).
  destruct (Z.le_ge_cases 0 b); nia.
Qed.

(** Soundness of the interval analysis: when the interval of the result
    has no fault, the exact result of every pair of values of the operand
    intervals is a value of [R]. *)
Lemma interval_sound (op : arithmetic) (R : native_int) (t u : Interval.interval) (a b : Z) :
  no_exception (interval_of op R t u) = true ->
  Interval.l t <= a <= Interval.u t ->
  Interval.l u <= b <= Interval.u u ->
  representable R (exact op a b).
Proof.
  intros Hn Ha Hb. destruct op; simpl in *.
  - apply of_endpoints_ok in Hn. unfold representable in *. lia.
  - apply of_endpoints_ok in Hn. unfold representable in *. lia.
  - apply of_corners_ok in Hn. destruct Hn as (H1 & H2 & H3 & H4).
    unfold representable in *.
    eapply product_between_corners; eauto.
Qed.

(** Promotion keeps every value of the type. *)
Lemma representable_promote (R : native_int) (r : Z) :
  representable R r -> representable (promote R) r.
Proof.
  unfold promote.
  destruct (Pos.ltb_spec (bits R) (bits cpp_int)) as [Hlt|Hge]; [|auto].
  pose proof (half_pos R). pose proof (modulus_half R).
  assert (Hle : modulus R <= half cpp_int).
  { unfold modulus, half. simpl bits in *. apply Z.pow_le_mono_r; lia. }
  unfold representable, numeric_min, numeric_max. simpl (is_signed cpp_int).
  cbv iota. destruct (is_signed R); lia.
Qed.

(** A result that the type of the expression represents is the value of
    the expression. *)
Lemma native_result_exact (C : native_int) (r : Z) :
  representable C r -> native_result C r = Done r.
Proof.
  unfold representable, native_result, numeric_min, numeric_max.
  pose proof (modulus_pos C).
  destruct (is_signed C); intros Hr.
  - destruct (Z.leb_spec (- half C) r); [|lia].
    destruct (Z.leb_spec r (half C - 1)); [|lia]. reflexivity.
  - rewrite Z.mod_small by lia. reflexivity.
Qed.

(** The native operation on two values of [R] whose exact result is a
    value of [R] yields the exact result. *)
Lemma native_of_exact (op : arithmetic) (R : native_int) (a b : Z) :
  representable R (exact op a b) -> native_of op R a b = Done (exact op a b).
Proof.
  intros Hrep. apply representable_promote in Hrep.
  destruct op; simpl in *; apply native_result_exact; exact Hrep.
Qed.

Lemma operator_of_unfold
  (pp : policy -> Promotion.promotion_policy) (ep : policy -> policy_hooks)
  (op : arithmetic) (t u : operand) :
  operator_of pp ep op t u
  = arithmetic_operator pp ep (result_struct pp op) (interval_of op) (native_of op)
                        (checked_of op) t u.
Proof. destruct op; reflexivity. Qed.

Lemma validate_iff (this : safe_params) (v : Z) :
  validate this v = true <-> Min this <= v <= Max this.
Proof.
  unfold validate, SafeCompare.less_than.
  destruct (Z.ltb_spec (Max this) v); destruct (Z.ltb_spec v (Min this)); simpl;
    split; intros H1; try discriminate; try lia; reflexivity.
Qed.

(** What the constructor from a native value comes to. *)
Lemma of_native_cases (EP : policy_hooks) (this : safe_params) (v : Z) :
  of_native EP this v
  = if validate this v
    then ([], Done (mk_safe_base this (static_cast (Stored this) v)))
    else ([hook_call range_error range_message],
          if hook_returns EP range_error
          then Done (mk_safe_base this (static_cast (Stored this) v))
          else Thrown).
Proof.
  unfold of_native, invoke. destruct (validate this v); simpl; [reflexivity|].
  destruct (hook_returns EP range_error); reflexivity.
Qed.

(* ------------------------------------------------------------------ *)
(** ** The unchecked path of addition, subtraction and multiplication *)

Lemma checked_of_in_range (op : arithmetic) (R : native_int) (a b : Z) :
  checked_of op R a b = Checked.in_range R (overflow_message op) (exact op a b).
Proof. destruct op; reflexivity. Qed.

(** A value the checked primitive returns is delivered as it is. *)
Lemma deliver_value (i : instance) (v : Z) :
  deliver i (of_value v) = wrap i (static_cast (result_base_type i) v).
Proof.
  unfold deliver, dispatch. simpl.
  destruct (wrap i (static_cast (result_base_type i) v)) as [tr o]. reflexivity.
Qed.

Lemma bind_lift_done {A B} (a : A) (f : A -> M B) : bind (lift (Done a)) f = f a.
Proof. unfold bind, lift. destruct (f a) as [tr o]. reflexivity. Qed.

(** An exact result that is a value of the result base type is what the
    result type is constructed from, on the checked path always and on
    the unchecked path when the values of the operands are values of the
    result base type too. *)
Lemma arithmetic_operator_representable
  (pp : policy -> Promotion.promotion_policy) (ep : policy -> policy_hooks)
  (op : arithmetic) (t u : operand) (i : instance) :
  instantiate pp ep (result_struct pp op) (type_of t) (type_of u) = Some i ->
  representable (result_base_type i) (exact op (base_value t) (base_value u)) ->
  no_exception (interval_of op (result_base_type i)
                  (static_interval (type_of t)) (static_interval (type_of u))) = false \/
  (representable (result_base_type i) (base_value t) /\
   representable (result_base_type i) (base_value u)) ->
  operator_of pp ep op t u = Some (wrap i (exact op (base_value t) (base_value u))).
Proof.
  intros Hi Hrep Hpath. rewrite operator_of_unfold. unfold arithmetic_operator.
  rewrite Hi. cbv zeta. destruct (no_exception _).
  - destruct Hpath as [Hn|[Ht Hu]]; [discriminate|].
    rewrite !static_cast_id by assumption.
    rewrite native_of_exact by exact Hrep. now rewrite bind_lift_done.
  - rewrite checked_of_in_range.
    destruct (in_range_cases (result_base_type i) (overflow_message op)
                (exact op (base_value t) (base_value u))) as [[_ ->]|[[Hx _]|[Hx _]]];
      try (unfold representable in Hrep; lia).
    rewrite deliver_value, static_cast_id by exact Hrep. reflexivity.
Qed.

(** When the values of the operands are themselves values of the result
    base type, the unchecked path changes nothing: the conversions leave
    the operands as they are and the native operation yields the exact
    result. *)
Lemma unchecked_arithmetic_without_reduction
  (op : arithmetic) (R : native_int) (t u : Interval.interval) (a b : Z) :
  no_exception (interval_of op R t u) = true ->
  Interval.l t <= a <= Interval.u t ->
  Interval.l u <= b <= Interval.u u ->
  representable R a -> representable R b ->
  static_cast R a = a /\ static_cast R b = b /\
  representable R (exact op a b) /\
  native_of op R a b = Done (exact op a b).
Proof.
  intros Hn Ha Hb Hra Hrb.
  assert (Hrep : representable R (exact op a b)) by (eapply interval_sound; eauto).
  repeat split; try (apply static_cast_id; assumption); try apply Hrep.
  now apply native_of_exact.
Qed.

(** C3. [safe<1,10>(2) + safe<-1,-1>(-1)], of stored types [unsigned
    char] and [signed char], with [unsigned char] as result base type and
    [[1,10]] as result bounds: the interval of the sum, [[0,9]], has no
    fault and the exact sum, 1, is a value of the result base type within
    the result bounds; on the unchecked path the right operand is
    converted to 255, the native sum is 257, and the construction of the
    result from it calls the range hook, which throws.  Likewise
    [safe<-100,100>(-47) % safe<1,10>(5)], of stored types [int] and
    [unsigned]: the divisor interval excludes zero, the native remainder
    is taken in [unsigned] and the result holds 4, where the exact
    remainder is -2. *)
Theorem unchecked_path_converts_operands :
  (no_exception (Interval.add uint8
                   (static_interval (safe (Examples.range_of uint8 1 10 "throw")))
                   (static_interval (safe (Examples.range_of int8 (-1) (-1) "throw")))) = true /\
   exact plus 2 (-1) = 1 /\
   representable uint8 (exact plus 2 (-1)) /\
   validate (Examples.range_of uint8 1 10 "throw") (exact plus 2 (-1)) = true /\
   native_add uint8 (static_cast uint8 2) (static_cast uint8 (-1)) = Done 257 /\
   operator_plus Examples.promotions Examples.exceptions
     (safe_operand (Examples.strict uint8 1 10 2))
     (safe_operand (Examples.strict int8 (-1) (-1) (-1)))
   = Some ([hook_call range_error range_message], Thrown)) /\
  (modulus_path (safe (Examples.range_of uint32 1 10 "throw")) = unchecked_path /\
   Z.rem (-47) 5 = -2 /\
   operator_modulus Examples.promotions Examples.exceptions
     (safe_operand (Examples.strict int32 (-100) 100 (-47)))
     (safe_operand (Examples.strict uint32 1 10 5))
   = Some (ret (Examples.strict int32 (-100) 100 4))).
Proof.
  split.
  - repeat split; try reflexivity; vm_compute; discriminate.
  - repeat split.
Qed.

(* ------------------------------------------------------------------ *)
(** ** The checked path of addition, subtraction and multiplication *)

(** C5. [safe<-128,127>(100) + safe<-128,127>(100)] in [signed char]
    under an ignoring exception policy: the hook for the overflow is
    called and returns, and the conversion of the fault carrier then
    fails the assertion of [checked_result]; no object is returned, so
    none that holds the wrapped sum -56. *)
Lemma ignoring_policy_returns_no_wrapped_value :
  operator_plus Examples.promotions Examples.exceptions
    (safe_operand (Examples.lenient int8 (-128) 127 100))
    (safe_operand (Examples.lenient int8 (-128) 127 100))
  = Some ([hook_call positive_overflow "addition overflow"], AssertFailed) /\
  static_cast int8 (100 + 100) = -56 /\
  ~ (exists m s,
        operator_plus Examples.promotions Examples.exceptions
          (safe_operand (Examples.lenient int8 (-128) 127 100))
          (safe_operand (Examples.lenient int8 (-128) 127 100)) = Some m /\
        result m = Done s /\ m_t s = static_cast int8 (100 + 100)).
Proof.
  assert (H : operator_plus Examples.promotions Examples.exceptions
                (safe_operand (Examples.lenient int8 (-128) 127 100))
                (safe_operand (Examples.lenient int8 (-128) 127 100))
              = Some ([hook_call positive_overflow "addition overflow"], AssertFailed))
    by reflexivity.
  repeat split; try exact H.
  intros (m & s & Hm & Hs & _). rewrite H in Hm. injection Hm as <-.
  discriminate Hs.
Qed.

(** For [+], [-] and [*] on operands that hold values of their static
    ranges: when the exact result is not a value of the
    result base type, the operator takes the checked path, the primitive
    returns [positive_overflow] or [negative_overflow] according to the
    side on which the exact result falls, and the hook of the common
    exception policy for that kind is called exactly once.  When the hook
    does not return, the fault is thereby reported and nothing else
    happens; when it returns, the conversion of the fault carrier to the
    result base type fails its assertion and no value is delivered.  A
    value the checked primitive does return is delivered unchanged. *)
Theorem overflow_reported_once
  (pp : policy -> Promotion.promotion_policy) (ep : policy -> policy_hooks)
  (op : arithmetic) (t u : operand) (i : instance) :
  instantiate pp ep (result_struct pp op) (type_of t) (type_of u) = Some i ->
  in_static_range t -> in_static_range u ->
  ~ representable (result_base_type i) (exact op (base_value t) (base_value u)) ->
  (exists e,
      (e = positive_overflow /\
       numeric_max (result_base_type i) < exact op (base_value t) (base_value u) \/
       e = negative_overflow /\
       exact op (base_value t) (base_value u) < numeric_min (result_base_type i)) /\
      operator_of pp ep op t u
      = Some ([hook_call e (overflow_message op)],
              if hook_returns (exception_hooks i) e then AssertFailed else Thrown)) /\
  (forall v, deliver i (of_value v) = wrap i (static_cast (result_base_type i) v)).
Proof.
  intros Hi Ht Hu Hover. split; [|apply deliver_value].
  assert (Hn : no_exception (interval_of op (result_base_type i)
                               (static_interval (type_of t)) (static_interval (type_of u)))
               = false).
  { destruct (no_exception _) eqn:Hn; [|reflexivity].
    exfalso. apply Hover. eapply interval_sound; eauto. }
  rewrite operator_of_unfold. unfold arithmetic_operator.
  rewrite Hi. cbv zeta. rewrite Hn, checked_of_in_range.
  destruct (in_range_cases (result_base_type i) (overflow_message op)
              (exact op (base_value t) (base_value u))) as [[Hx _]|[[Hx ->]|[Hx ->]]].
  - contradiction.
  - exists positive_overflow. split; [left; split; [reflexivity|exact Hx]|].
    rewrite deliver_fault by discriminate. reflexivity.
  - exists negative_overflow. split; [right; split; [reflexivity|exact Hx]|].
    rewrite deliver_fault by discriminate. reflexivity.
Qed.

(** [safe<-128,127>(-100) - safe<-128,127>(50)] in [signed char] under a
    strict policy: the hook for the negative overflow is called once and
    throws. *)
Lemma overflow_reported_once_witness :
  exists e,
    (e = positive_overflow /\ numeric_max int8 < -100 - 50 \/
     e = negative_overflow /\ -100 - 50 < numeric_min int8) /\
    operator_minus Examples.promotions Examples.exceptions
      (safe_operand (Examples.strict int8 (-128) 127 (-100)))
      (safe_operand (Examples.strict int8 (-128) 127 50))
    = Some ([hook_call e "subtraction overflow"], Thrown).
Proof.
  refine (proj1
    (overflow_reported_once Examples.promotions Examples.exceptions minus
       (safe_operand (Examples.strict int8 (-128) 127 (-100)))
       (safe_operand (Examples.strict int8 (-128) 127 50))
       (mk_instance (Examples.range_of int8 (-128) 127 "throw")
          (Examples.promotions "same"%string) throw_exception throw_exception)
       _ _ _ _)).
  - reflexivity.
  - unfold in_static_range; simpl; lia.
  - unfold in_static_range; simpl; lia.
  - unfold representable; vm_compute. intros [H _]. apply H. reflexivity.
Defined.

(* ------------------------------------------------------------------ *)
(** ** Construction and assignment *)

Lemma includes_iff (this other : Interval.interval) :
  Interval.includes this other = true <->
  Interval.l this <= Interval.l other /\ Interval.u other <= Interval.u this.
Proof.
  unfold Interval.includes. rewrite andb_true_iff, !Z.leb_le. reflexivity.
Qed.

(** What the run-time part of a conversion comes to. *)
Lemma assign_checked_cases (EP : policy_hooks) (this : safe_params) (t : safe_base) :
  assign_checked EP this t
  = if Interval.includes (Interval.mk_interval (Min this) (Max this))
                         (Interval.mk_interval (Min (params t)) (Max (params t)))
       || validate this (m_t t)
    then ([], Done (mk_safe_base this (static_cast (Stored this) (m_t t))))
    else ([hook_call range_error range_message],
          if hook_returns EP range_error
          then Done (mk_safe_base this (static_cast (Stored this) (m_t t)))
          else Thrown).
Proof.
  unfold assign_checked, invoke.
  destruct (Interval.includes _ _); simpl; [reflexivity|].
  destruct (validate this (m_t t)); simpl; [reflexivity|].
  destruct (hook_returns EP range_error); reflexivity.
Qed.

Lemma assign_is_construct (ep : policy -> policy_hooks) (old t : safe_base) :
  assign ep old t = construct ep (params old) t.
Proof. reflexivity. Qed.

Lemma convertible_iff (this T : safe_params) :
  Min this <= Max this -> Min T <= Max T ->
  (convertible this T = true <-> overlap this T).
Proof.
  intros Hthis HT. unfold convertible. rewrite lt_indeterminate_iff. simpl.
  unfold overlap. split.
  - intros [H1 H2]. exists (Z.max (Min this) (Min T)). lia.
  - intros (x & H1 & H2). lia.
Qed.

Lemma stored_value_kept (this : safe_params) (v : Z) :
  well_formed this -> Min this <= v <= Max this ->
  static_cast (Stored this) v = v.
Proof.
  intros [Hlo Hhi] Hv. apply static_cast_id.
  unfold representable in *. lia.
Qed.

(** Under an ignoring policy [safe<0,10>] is constructed from
    [safe<0,100>(50)]: the range hook is called and returns, and the
    object holds 50, which is above its bound 10. *)
Lemma lenient_construction_out_of_bounds :
  construct Examples.exceptions (Examples.range_of int8 0 10 "ignore")
    (Examples.lenient int8 0 100 50)
  = Some ([hook_call range_error range_message],
          Done (Examples.lenient int8 0 10 50)) /\
  ~ in_bounds (Examples.lenient int8 0 10 50) /\
  ~ (forall (ep : policy -> policy_hooks) (this : safe_params) (t : safe_base)
            (m : M safe_base) (s : safe_base),
        construct ep this t = Some m -> result m = Done s -> in_bounds s).
Proof.
  assert (Hc : construct Examples.exceptions (Examples.range_of int8 0 10 "ignore")
                 (Examples.lenient int8 0 100 50)
               = Some ([hook_call range_error range_message],
                       Done (Examples.lenient int8 0 10 50))) by reflexivity.
  assert (Hb : ~ in_bounds (Examples.lenient int8 0 10 50))
    by (unfold in_bounds; simpl; lia).
  repeat split; try exact Hc; try exact Hb.
  intros H. apply Hb. eapply H; [exact Hc|reflexivity].
Qed.

(** C4, as amended. A conversion, by the converting constructor or by the
    assignment, to a safe type whose bounds are values of its stored
    type, from an object that is within its own bounds: when the range
    hook of the exception policy does not return (a strict policy), or
    when no hook was called, every object the conversion yields is of the
    destination type, holds the value of its source, and is within the
    bounds [Min] and [Max] of the destination. *)
Theorem strict_conversion_in_bounds
  (ep : policy -> policy_hooks) (EP : policy_hooks)
  (this : safe_params) (t : safe_base) (m : M safe_base) (s : safe_base) :
  well_formed this -> in_bounds t ->
  hooks ep (E this) = Some EP ->
  (construct ep this t = Some m \/
   exists old, params old = this /\ assign ep old t = Some m) ->
  (hook_returns EP range_error = false \/ trace m = []) ->
  result m = Done s ->
  params s = this /\ m_t s = m_t t /\ in_bounds s.
Proof.
  intros Hwf Ht HE Hm Hstrict Hs.
  assert (Hc : construct ep this t = Some m).
  { destruct Hm as [Hm|(old & <- & Hm)]; [exact Hm|].
    now rewrite assign_is_construct in Hm. }
  unfold construct in Hc.
  destruct (convertible this (params t)) eqn:Hconv; [|discriminate].
  simpl in Hc. rewrite HE in Hc. injection Hc as <-.
  rewrite assign_checked_cases in Hs, Hstrict.
  destruct (Interval.includes _ _) eqn:Hinc; simpl in Hs, Hstrict.
  - apply includes_iff in Hinc. simpl in Hinc.
    assert (Hv : Min this <= m_t t <= Max this) by (unfold in_bounds in Ht; lia).
    injection Hs as <-. simpl.
    rewrite stored_value_kept by assumption.
    unfold in_bounds. simpl. auto.
  - destruct (validate this (m_t t)) eqn:Hval; simpl in Hs, Hstrict.
    + apply validate_iff in Hval. injection Hs as <-. simpl.
      rewrite stored_value_kept by assumption.
      unfold in_bounds. simpl. auto.
    + destruct Hstrict as [Hstrict|Hstrict]; [|discriminate].
      rewrite Hstrict in Hs. discriminate.
Qed.

(** Under a strict policy [safe<0,255>] is assigned from
    [safe<-1000,1000>(200)]: the value is validated and kept. *)
Lemma strict_conversion_in_bounds_witness :
  params (Examples.strict int16 0 255 200) = Examples.range_of int16 0 255 "throw" /\
  m_t (Examples.strict int16 0 255 200) = m_t (Examples.strict int16 (-1000) 1000 200) /\
  in_bounds (Examples.strict int16 0 255 200).
Proof.
  refine (strict_conversion_in_bounds Examples.exceptions throw_exception
            (Examples.range_of int16 0 255 "throw")
            (Examples.strict int16 (-1000) 1000 200)
            ([], Done (Examples.strict int16 0 255 200))
            (Examples.strict int16 0 255 200) _ _ _ _ _ _).
  - unfold well_formed, representable; vm_compute; repeat split; discriminate.
  - unfold in_bounds; simpl; lia.
  - reflexivity.
  - right. exists (Examples.strict int16 0 255 7). split; reflexivity.
  - left. reflexivity.
  - reflexivity.
Defined.

(** [safe<0,20>] under a strict policy constructed from a [safe<0,10>]
    that holds 50, as an ignoring policy leaves it: the destination
    interval includes the source interval, nothing is validated, no hook
    is called, and the object returned holds 50, which does not lie in
    [[0,20]]. *)
Lemma out_of_bounds_source_converted_unchecked :
  construct Examples.exceptions (Examples.range_of int8 0 20 "throw")
    (Examples.lenient int8 0 10 50)
  = Some (ret (Examples.strict int8 0 20 50)) /\
  ~ (Min (Examples.range_of int8 0 20 "throw") <= 50
     <= Max (Examples.range_of int8 0 20 "throw")) /\
  ~ (forall (ep : policy -> policy_hooks) (this : safe_params) (t : safe_base)
            (m : M safe_base),
        construct ep this t = Some m ->
        (trace m = [] /\ (exists s, result m = Done s) <->
         Min this <= m_t t <= Max this)).
Proof.
  assert (Hc : construct Examples.exceptions (Examples.range_of int8 0 20 "throw")
                 (Examples.lenient int8 0 10 50)
               = Some (ret (Examples.strict int8 0 20 50))) by reflexivity.
  assert (Hb : ~ (Min (Examples.range_of int8 0 20 "throw") <= 50
                  <= Max (Examples.range_of int8 0 20 "throw"))) by (simpl; lia).
  split; [exact Hc|]. split; [exact Hb|].
  intros H. apply Hb. apply (H _ _ _ _ Hc). split; [reflexivity|].
  eexists. reflexivity.
Qed.

(** C6, as amended. Converting an object [t] of [safe_base<T, C, D>] that
    holds a value within its own bounds to [safe_base<Stored, A, B>]
    (bounds in order, exception policy a class): the constructor and the assignment are well-formed
    exactly when [[A,B]] and [[C,D]] have a value in common, and they are
    the same conversion.  When [[A,B]] includes [[C,D]] nothing is
    validated: whatever value the source holds no hook is called.
    Otherwise the value is validated and [E::range_error] is called
    exactly when the validation fails.  The conversion succeeds, calling
    no hook and returning the object, exactly when the value of the
    source lies in [[A,B]]; otherwise [E::range_error] is called once. *)
Theorem conversion_validated_when_needed
  (ep : policy -> policy_hooks) (EP : policy_hooks)
  (this : safe_params) (t : safe_base) :
  Min this <= Max this -> Min (params t) <= Max (params t) -> in_bounds t ->
  hooks ep (E this) = Some EP ->
  ((exists m, construct ep this t = Some m) <-> overlap this (params t)) /\
  (forall old, params old = this -> assign ep old t = construct ep this t) /\
  (forall m, construct ep this t = Some m ->
     (Interval.includes (Interval.mk_interval (Min this) (Max this))
                        (Interval.mk_interval (Min (params t)) (Max (params t))) = true ->
      forall v, trace (assign_checked EP this (mk_safe_base (params t) v)) = []) /\
     (Interval.includes (Interval.mk_interval (Min this) (Max this))
                        (Interval.mk_interval (Min (params t)) (Max (params t))) = false ->
      forall v,
        trace (assign_checked EP this (mk_safe_base (params t) v))
        = if validate this v then [] else [hook_call range_error range_message]) /\
     (trace m = [] /\ (exists s, result m = Done s) <-> Min this <= m_t t <= Max this) /\
     (trace m = [hook_call range_error range_message] <->
      ~ (Min this <= m_t t <= Max this))).
Proof.
  intros Hthis HT Ht HE. split; [|split].
  - rewrite <- convertible_iff by assumption. unfold construct.
    destruct (convertible this (params t)); simpl.
    + rewrite HE. split; [reflexivity|]. intros _. eexists. reflexivity.
    + split; [intros [m Hm]; discriminate | discriminate].
  - intros old <-. apply assign_is_construct.
  - intros m Hm. unfold construct in Hm.
    destruct (convertible this (params t)); [|discriminate].
    simpl in Hm. rewrite HE in Hm. injection Hm as <-.
    repeat match goal with |- _ /\ _ => split end.
    + intros Hinc v. rewrite assign_checked_cases. simpl.
      rewrite Hinc. reflexivity.
    + intros Hinc v. rewrite assign_checked_cases. simpl.
      rewrite Hinc. simpl. destruct (validate this v); reflexivity.
    + rewrite assign_checked_cases.
      destruct (Interval.includes _ _) eqn:Hinc; simpl.
      * apply includes_iff in Hinc. simpl in Hinc. unfold in_bounds in Ht.
        split; [lia|]. intros _. split; [reflexivity|]. eexists. reflexivity.
      * destruct (validate this (m_t t)) eqn:Hval; simpl.
        -- apply validate_iff in Hval.
           split; [auto|]. intros _. split; [reflexivity|]. eexists. reflexivity.
        -- split; [intros [H _]; discriminate|].
           intros H. apply validate_iff in H. congruence.
    + rewrite assign_checked_cases.
      destruct (Interval.includes _ _) eqn:Hinc; simpl.
      * apply includes_iff in Hinc. simpl in Hinc. unfold in_bounds in Ht.
        split; [discriminate|]. intros H. exfalso. apply H. lia.
      * destruct (validate this (m_t t)) eqn:Hval; simpl.
        -- apply validate_iff in Hval. split; [discriminate|]. intros H. contradiction.
        -- split; [|reflexivity]. intros _ H. apply validate_iff in H. congruence.
Qed.

(** Narrowing [safe<-1000,1000>(500)] to [safe<0,255>] under a strict
    policy: the ranges overlap, the value is validated, and the range
    hook is called. *)
Lemma conversion_validated_when_needed_witness :
  overlap (Examples.range_of int16 0 255 "throw")
          (Examples.range_of int16 (-1000) 1000 "throw") /\
  trace ([hook_call range_error range_message], @Thrown safe_base)
  = [hook_call range_error range_message].
Proof.
  pose proof (conversion_validated_when_needed Examples.exceptions throw_exception
                (Examples.range_of int16 0 255 "throw")
                (Examples.strict int16 (-1000) 1000 500)) as H.
  assert (H1 : Min (Examples.range_of int16 0 255 "throw")
               <= Max (Examples.range_of int16 0 255 "throw")) by (simpl; lia).
  assert (H2 : Min (params (Examples.strict int16 (-1000) 1000 500))
               <= Max (params (Examples.strict int16 (-1000) 1000 500))) by (simpl; lia).
  assert (H3 : in_bounds (Examples.strict int16 (-1000) 1000 500))
    by (unfold in_bounds; simpl; lia).
  destruct (H H1 H2 H3 eq_refl) as (Hstatic & _ & Hrun).
  split.
  - apply Hstatic. eexists. reflexivity.
  - apply (Hrun ([hook_call range_error range_message], Thrown) eq_refl).
    simpl. lia.
Defined.

(* ------------------------------------------------------------------ *)
(** ** Policy composition *)

Lemma policy_eqb_eq (p q : option policy) : policy_eqb p q = true <-> p = q.
Proof.
  destruct p as [a|], q as [b|]; simpl; split; intros H;
    try discriminate; try reflexivity.
  - apply String.eqb_eq in H. now subst.
  - injection H as ->. apply String.eqb_refl.
Qed.

Lemma policy_eqb_sym (p q : option policy) : policy_eqb p q = policy_eqb q p.
Proof.
  destruct p as [a|], q as [b|]; simpl; try reflexivity. apply String.eqb_sym.
Qed.

Lemma compatible_sym (p q : option policy) : compatible p q = compatible q p.
Proof.
  unfold compatible. rewrite (policy_eqb_sym p q).
  destruct (policy_eqb q p), (is_void p), (is_void q); reflexivity.
Qed.

(** What [common_policies] resolves: the policies of the first operand
    that is a safe type, provided the assertions hold. *)
Lemma common_policies_cases (T U : cpp_type) :
  common_policies T U
  = if (is_safe T || is_safe U)
       && compatible (get_promotion_policy T) (get_promotion_policy U)
       && compatible (get_exception_policy T) (get_exception_policy U)
    then let st := if is_safe T then T else U in
         Some (mk_policies st (get_promotion_policy st) (get_exception_policy st))
    else None.
Proof.
  unfold common_policies.
  destruct (is_safe T) eqn:HT, (is_safe U) eqn:HU; simpl;
    destruct (compatible (get_promotion_policy T) (get_promotion_policy U)); simpl;
    try reflexivity;
    destruct (compatible (get_exception_policy T) (get_exception_policy U)); simpl;
    rewrite ?HT, ?HU; reflexivity.
Qed.

(** [common_policies] of a safe type whose promotion policy is [void]
    and a safe type with a promotion policy: in this order the common
    promotion policy is [void], in the other order it is the policy of the
    second type. *)
Lemma common_policies_order_matters :
  common_policies
    (safe (mk_safe_params int32 0 10 None (Some "throw"%string)))
    (safe (Examples.range_of int32 0 10 "throw"))
  = Some (mk_policies (safe (mk_safe_params int32 0 10 None (Some "throw"%string)))
            None (Some "throw"%string)) /\
  common_policies
    (safe (Examples.range_of int32 0 10 "throw"))
    (safe (mk_safe_params int32 0 10 None (Some "throw"%string)))
  = Some (mk_policies (safe (Examples.range_of int32 0 10 "throw"))
            (Some "same"%string) (Some "throw"%string)) /\
  ~ (forall (T U : cpp_type) (r : policies),
        is_safe T || is_safe U = true ->
        common_policies T U = Some r ->
        exists r', common_policies U T = Some r' /\
                   promotion_policy r' = promotion_policy r /\
                   exception_policy r' = exception_policy r).
Proof.
  split; [reflexivity|]. split; [reflexivity|].
  intros H.
  destruct (H (safe (mk_safe_params int32 0 10 None (Some "throw"%string)))
              (safe (Examples.range_of int32 0 10 "throw"))
              _ eq_refl eq_refl) as (r' & Hr' & Hp & _).
  vm_compute in Hr'. injection Hr' as <-. discriminate Hp.
Qed.

(** C7, as amended. If [common_policies<T, U>] compiles then
    [common_policies<U, T>] compiles too.  Each resolves the policies of
    its first operand that is a safe type; the two resolve the same
    promotion policy exactly when only one operand is a safe type or the
    two operands carry the same promotion policy, and likewise for the
    exception policy. *)
Theorem common_policies_swapped (T U : cpp_type) (r : policies) :
  common_policies T U = Some r ->
  exists r',
    common_policies U T = Some r' /\
    safe_type r = (if is_safe T then T else U) /\
    safe_type r' = (if is_safe U then U else T) /\
    (promotion_policy r' = promotion_policy r <->
     is_safe T && is_safe U = false \/
     get_promotion_policy T = get_promotion_policy U) /\
    (exception_policy r' = exception_policy r <->
     is_safe T && is_safe U = false \/
     get_exception_policy T = get_exception_policy U).
Proof.
  rewrite !common_policies_cases.
  rewrite (compatible_sym (get_promotion_policy U)),
          (compatible_sym (get_exception_policy U)), (orb_comm (is_safe U)).
  destruct (_ && _ && _) eqn:Hok; [|discriminate].
  intros Hr. injection Hr as <-. eexists. split; [reflexivity|]. cbv zeta. simpl.
  split; [reflexivity|]. split; [reflexivity|].
  destruct T as [N|s], U as [N'|s']; simpl in *; try discriminate.
  - split; split; auto.
  - split; split; auto.
  - split; (split; [intros ->; right; reflexivity | intros [H|H]; [discriminate|now symmetry]]).
Qed.

(** [int + safe<0,10>] and [safe<0,10> + int] resolve the same
    policies. *)
Lemma common_policies_swapped_witness :
  exists r',
    common_policies (safe (Examples.range_of int32 0 10 "throw")) (native int32) = Some r' /\
    promotion_policy r' = Some "same"%string /\
    exception_policy r' = Some "throw"%string.
Proof.
  destruct (common_policies_swapped (native int32)
              (safe (Examples.range_of int32 0 10 "throw"))
              (mk_policies (safe (Examples.range_of int32 0 10 "throw"))
                 (Some "same"%string) (Some "throw"%string)) eq_refl)
    as (r' & Hr' & _ & _ & Hp & He).
  exists r'. split; [exact Hr'|]. split.
  - apply Hp. left. reflexivity.
  - apply He. left. reflexivity.
Defined.

(* ------------------------------------------------------------------ *)
(** ** Result types of the bitwise operators *)

Lemma instantiate_result
  (pp : policy -> Promotion.promotion_policy) (ep : policy -> policy_hooks)
  (result : cpp_type -> cpp_type -> option cpp_type) (T U : cpp_type) (i : instance) :
  instantiate pp ep result T U = Some i ->
  result T U = Some (safe (result_type i)).
Proof.
  unfold instantiate. destruct (negb _); [discriminate|].
  destruct (result T U) as [[N|RT]|]; try discriminate.
  destruct (common_policies T U) as [cp|]; try discriminate.
  destruct (promotion_policy cp); try discriminate.
  destruct (hooks ep (exception_policy cp)); try discriminate.
  destruct (hooks ep (E RT)); try discriminate.
  intros H. injection H as <-. reflexivity.
Qed.

Lemma wrap_params (i : instance) (v : Z) (s : safe_base) :
  result (wrap i v) = Done s -> params s = result_type i.
Proof.
  unfold wrap. rewrite of_native_cases.
  destruct (validate _ _); [|destruct (hook_returns _ _)]; simpl; intros H;
    try discriminate; injection H as <-; reflexivity.
Qed.

Lemma deliver_params (i : instance) (r : checked_result Z) (s : safe_base) :
  result (deliver i r) = Done s -> params s = result_type i.
Proof.
  unfold deliver.
  destruct (dispatch (exception_hooks i) r) as [tr [[]| | |]]; simpl; try discriminate.
  destruct (to_R r) as [v| | |]; simpl; try discriminate.
  destruct (wrap i _) as [tr' o] eqn:Hw. simpl. intros ->.
  apply (wrap_params i (static_cast (result_base_type i) v)). now rewrite Hw.
Qed.

Lemma bitwise_operator_type
  (pp : policy -> Promotion.promotion_policy) (ep : policy -> policy_hooks)
  (res : cpp_type -> cpp_type -> option cpp_type)
  (checked_op : native_int -> Z -> Z -> checked_result Z)
  (t u : operand) (m : M safe_base) (s : safe_base) :
  bitwise_operator pp ep res checked_op t u = Some m ->
  result m = Done s ->
  res (type_of t) (type_of u) = Some (safe (params s)).
Proof.
  unfold bitwise_operator.
  destruct (instantiate pp ep res (type_of t) (type_of u)) as [i|] eqn:Hi;
    [|discriminate].
  destruct (negb _); [discriminate|].
  destruct (is_signed _); [discriminate|].
  intros H Hs. injection H as <-.
  apply deliver_params in Hs. rewrite Hs.
  eapply instantiate_result; eauto.
Qed.

(** Under a promotion policy whose [or_result], [and_result] and
    [xor_result] differ, the result types of [operator&] and [operator^]
    are not those of [and_result] and [xor_result]. *)
Lemma bitwise_result_not_from_and_xor :
  bitwise_and_result_type Examples.promotions
    (safe (mk_safe_params uint8 0 255 (Some "bitwise"%string) (Some "throw"%string)))
    (safe (mk_safe_params uint8 0 255 (Some "bitwise"%string) (Some "throw"%string)))
  <> spec_and_result_type Examples.promotions
    (safe (mk_safe_params uint8 0 255 (Some "bitwise"%string) (Some "throw"%string)))
    (safe (mk_safe_params uint8 0 255 (Some "bitwise"%string) (Some "throw"%string))) /\
  bitwise_xor_result_type Examples.promotions
    (safe (mk_safe_params uint8 0 255 (Some "bitwise"%string) (Some "throw"%string)))
    (safe (mk_safe_params uint8 0 255 (Some "bitwise"%string) (Some "throw"%string)))
  <> spec_xor_result_type Examples.promotions
    (safe (mk_safe_params uint8 0 255 (Some "bitwise"%string) (Some "throw"%string)))
    (safe (mk_safe_params uint8 0 255 (Some "bitwise"%string) (Some "throw"%string))).
Proof. split; vm_compute; discriminate. Qed.

(** C9, as amended. [operator&] and [operator^] derive their result type
    from the promotion policy's [or_result] type function, the one
    [operator|] uses, applied to (T, U, promotion policy, exception
    policy); every object either operator returns is of that type. *)
Theorem bitwise_results_from_or_result
  (pp : policy -> Promotion.promotion_policy) (ep : policy -> policy_hooks) :
  (forall T U : cpp_type,
      bitwise_and_result_type pp T U = result_of pp Promotion.or_result T U /\
      bitwise_xor_result_type pp T U = result_of pp Promotion.or_result T U /\
      bitwise_or_result_type pp T U = result_of pp Promotion.or_result T U) /\
  (forall (t u : operand) (m : M safe_base) (s : safe_base),
      operator_and pp ep t u = Some m -> result m = Done s ->
      result_of pp Promotion.or_result (type_of t) (type_of u) = Some (safe (params s))) /\
  (forall (t u : operand) (m : M safe_base) (s : safe_base),
      operator_xor pp ep t u = Some m -> result m = Done s ->
      result_of pp Promotion.or_result (type_of t) (type_of u) = Some (safe (params s))).
Proof.
  split; [intros T U; repeat split|].
  split; intros t u m s Hm Hs;
    eapply (bitwise_operator_type pp ep (or_result pp)); eauto.
Qed.

(* ------------------------------------------------------------------ *)
(** ** Stream extraction *)

Lemma Temp_primary (T : native_int) : Temp T = T.
Proof. reflexivity. Qed.

(** C10. In [operator>>] for a safe type whose exception policy is a
    class, whatever the stream of the library does: the temporary is of
    the stored type, also for the character types; when the stream has
    failed after the extraction, [E::range_error("error in file input")]
    is the first hook called.  If that hook does not return nothing else
    happens; if it returns, the operator returns the stream and the
    target holds what the extraction left in the temporary, converted to
    the stored type. *)
Theorem extraction_failure_still_assigns
  (ep : policy -> policy_hooks) (EP : policy_hooks)
  (istream : Type) (extract : native_int -> istream -> Z -> istream * Z)
  (fail : istream -> bool)
  (indeterminate : Z) (ins : istream) (t : safe_base) :
  hooks ep (E (params t)) = Some EP ->
  fail (fst (extract (Stored (params t)) ins indeterminate)) = true ->
  Temp (Stored (params t)) = Stored (params t) /\
  exists m,
    operator_extract ep istream extract fail indeterminate ins t = Some m /\
    (exists rest, trace m = hook_call range_error "error in file input" :: rest) /\
    (hook_returns EP range_error = false ->
     m = ([hook_call range_error "error in file input"], Thrown)) /\
    (hook_returns EP range_error = true ->
     result m = Done (fst (extract (Stored (params t)) ins indeterminate),
                      mk_safe_base (params t)
                        (static_cast (Stored (params t))
                           (snd (extract (Stored (params t)) ins indeterminate))))).
Proof.
  intros HE Hfail. split; [apply Temp_primary|].
  unfold operator_extract. rewrite HE, Temp_primary. cbv zeta. rewrite Hfail.
  eexists. split; [reflexivity|].
  rewrite of_native_cases. unfold invoke.
  destruct (hook_returns EP range_error) eqn:Hret; simpl.
  - destruct (validate (params t) _); simpl;
      (split; [eexists; reflexivity|]); (split; [discriminate|reflexivity]).
  - split; [eexists; reflexivity|]. split; [reflexivity|discriminate].
Qed.

(** Reading from a stream that is not in good state into a [safe<0,10>]
    of stored type [short] with an ignoring policy, the uninitialised
    temporary holding 77: the hook is called, and the target holds 77. *)
Lemma extraction_failure_still_assigns_witness :
  exists m,
    operator_extract Examples.exceptions Examples.failed_stream
      Examples.failed_extract Examples.failed_fail 77 Examples.failed
      (Examples.lenient int16 0 10 3) = Some m /\
    result m = Done (Examples.failed, Examples.lenient int16 0 10 77).
Proof.
  destruct (extraction_failure_still_assigns Examples.exceptions ignore_exception
              Examples.failed_stream Examples.failed_extract Examples.failed_fail
              77 Examples.failed (Examples.lenient int16 0 10 3)
              eq_refl eq_refl) as (_ & m & Hm & _ & _ & Hret).
  exists m. split; [exact Hm|]. exact (Hret eq_refl).
Defined.

(* ================================================================== *)
(** * Further properties of the two headers *)

(* ------------------------------------------------------------------ *)
(** ** Carriers and their conversion *)

Lemma convert_consistent {T R} (conv : T -> R) (t : checked_result T) :
  consistent t ->
  exists c, convert conv t = Done c /\ consistent c /\ m_e c = m_e t /\
            m_u c = match m_u t with
                    | m_r r => m_r (conv r)
                    | m_msg msg => m_msg msg
                    end.
Proof.
  unfold consistent, convert. destruct t as [e [r|msg]]; simpl.
  - intros ->. simpl. eexists. repeat split.
  - intros He. destruct e; try congruence; simpl; eexists; repeat split; discriminate.
Qed.

Lemma built_consistent (R : Type) (c : checked_result R) : built R c -> consistent c.
Proof.
  induction 1 as [R r | R e msg c Hc | T R conv t c Ht IH Hc].
  - reflexivity.
  - unfold of_error in Hc. simpl in Hc.
    destruct e; simpl in Hc; try discriminate; injection Hc as <-;
      unfold consistent; simpl; discriminate.
  - destruct (convert_consistent conv t IH) as (c' & Hc' & Hcons & _).
    rewrite Hc in Hc'. injection Hc' as <-. exact Hcons.
Qed.

(** Every carrier the constructors of [checked_result] build keeps the
    kind and the union in step, and exactly one of its two slots can be
    read: the conversion to [R] returns and the conversion to a message
    fails its assertion when the kind is [success], the other way round
    otherwise; no inactive member of the union is ever read. *)
Theorem built_carrier_reads_one_slot (R : Type) (c : checked_result R) :
  built R c ->
  consistent c /\
  ((exists r, to_R c = Done r /\ to_msg c = AssertFailed /\ exception c = false) \/
   (exists msg, to_msg c = Done msg /\ to_R c = AssertFailed /\ exception c = true)) /\
  to_R c <> Undefined /\ to_msg c <> Undefined.
Proof.
  intros Hb. pose proof (built_consistent R c Hb) as Hc. split; [exact Hc|].
  unfold consistent in Hc. unfold to_R, to_msg, exception.
  destruct c as [e [r|msg]]; simpl in *.
  - subst e. simpl. split; [left; exists r; auto|]. split; discriminate.
  - destruct e; try congruence; simpl;
      (split; [right; exists msg; auto|]); split; discriminate.
Qed.

(** A fault carrier of [int] converted to a carrier of [long]: the
    message can be read, the value cannot. *)
Lemma built_carrier_reads_one_slot_witness :
  (exists r : Z, to_R (@fault Z divide_by_zero "divide by zero") = Done r /\
                 to_msg (@fault Z divide_by_zero "divide by zero") = AssertFailed /\
                 exception (@fault Z divide_by_zero "divide by zero") = false) \/
  (exists msg, to_msg (@fault Z divide_by_zero "divide by zero") = Done msg /\
               to_R (@fault Z divide_by_zero "divide by zero") = AssertFailed /\
               exception (@fault Z divide_by_zero "divide by zero") = true).
Proof.
  refine (proj1 (proj2 (built_carrier_reads_one_slot Z (fault divide_by_zero "divide by zero") _))).
  apply (built_convert Z Z (fun x => x) (fault divide_by_zero "divide by zero")).
  - apply (built_of_error Z divide_by_zero "divide by zero"). reflexivity.
  - reflexivity.
Defined.

(** The converting constructor, on a carrier whose kind and union are in
    step: it returns, it keeps the kind, it maps a value through the
    conversion of the value types and keeps a message as it is.
    Converting along the identity changes nothing, and converting twice is
    converting along the composed conversion. *)
Theorem convert_preserves (T R V : Type) (f : T -> R) (g : R -> V) (t : checked_result T) :
  consistent t ->
  (exists c, convert f t = Done c /\
             consistent c /\
             to_error c = to_error t /\
             exception c = exception t /\
             to_R c = outcome_bind (to_R t) (fun r => Done (f r)) /\
             to_msg c = to_msg t) /\
  convert (fun x => x) t = Done t /\
  outcome_bind (convert f t) (convert g) = convert (fun x => g (f x)) t.
Proof.
  intros Hc. unfold consistent in Hc.
  destruct t as [e [r|msg]]; simpl in Hc.
  - subst e. repeat split. eexists. repeat split.
  - destruct e; try congruence; repeat split; eexists; repeat split; discriminate.
Qed.

(** An overflow carrier of a narrow type converted to a wider one keeps
    its kind and message. *)
Lemma convert_preserves_witness :
  exists c : checked_result Z,
    convert (fun x : Z => x + 0) (@fault Z positive_overflow "addition overflow") = Done c /\
    to_error c = positive_overflow /\
    to_msg c = Done "addition overflow"%string.
Proof.
  destruct (proj1 (convert_preserves Z Z Z (fun x => x + 0) (fun x => x)
                     (fault positive_overflow "addition overflow")
                     ltac:(unfold consistent; simpl; discriminate)))
    as (c & Hc & _ & He & _ & _ & Hm).
  exists c. split; [exact Hc|]. split; [exact He|exact Hm].
Defined.

(* ------------------------------------------------------------------ *)
(** ** The comparison operators on values of the static ranges *)

Lemma gt_lt_swap (t u : Interval.interval) :
  Interval.indeterminate (Interval.gt t u) = Interval.indeterminate (Interval.lt t u).
Proof.
  unfold Interval.gt, Interval.lt.
  destruct (SafeCompare.greater_than _ _), (SafeCompare.less_than _ _); reflexivity.
Qed.

Lemma lt_indeterminate_sym (t u : Interval.interval) :
  Interval.indeterminate (Interval.lt t u) = Interval.indeterminate (Interval.lt u t).
Proof.
  destruct (Interval.indeterminate (Interval.lt t u)) eqn:H1;
    destruct (Interval.indeterminate (Interval.lt u t)) eqn:H2; try reflexivity.
  - apply lt_indeterminate_iff in H1. 
    assert (H3 : Interval.indeterminate (Interval.lt u t) = true)
      by (apply lt_indeterminate_iff; tauto).
    congruence.
  - apply lt_indeterminate_iff in H2.
    assert (H3 : Interval.indeterminate (Interval.lt t u) = true)
      by (apply lt_indeterminate_iff; tauto).
    congruence.
Qed.

(** [operator==] and [operator!=] on operands that hold values of their
    static ranges: the result is the equality, and the inequality, of the
    two values; the short cut taken for strictly ordered static intervals
    never changes it. *)
Theorem operator_eq_exact (lhs rhs : operand) :
  is_safe (type_of lhs) || is_safe (type_of rhs) = true ->
  in_static_range lhs -> in_static_range rhs ->
  operator_eq lhs rhs = Some (base_value lhs =? base_value rhs) /\
  operator_ne lhs rhs = Some (negb (base_value lhs =? base_value rhs)).
Proof.
  intros Hs [Hl1 Hl2] [Hr1 Hr2].
  assert (He : operator_eq lhs rhs = Some (base_value lhs =? base_value rhs)).
  { unfold operator_eq. rewrite Hs. simpl.
    unfold Interval.lt, Interval.gt, SafeCompare.less_than, SafeCompare.greater_than,
      SafeCompare.equal. simpl.
    destruct (Z.ltb_spec (limits_max (type_of lhs)) (limits_min (type_of rhs)));
      destruct (Z.ltb_spec (limits_max (type_of rhs)) (limits_min (type_of lhs)));
      simpl; try reflexivity; f_equal; symmetry; apply Z.eqb_neq; lia. }
  split; [exact He|]. unfold operator_ne. rewrite He. reflexivity.
Qed.

(** [safe<0,10>(5) == safe<100,200>(150)] is decided by the intervals
    and is [false]. *)
Lemma operator_eq_exact_witness :
  operator_eq (safe_operand (Examples.strict uint8 0 10 5))
              (safe_operand (Examples.strict uint8 100 200 150)) = Some (5 =? 150) /\
  operator_ne (safe_operand (Examples.strict uint8 0 10 5))
              (safe_operand (Examples.strict uint8 100 200 150)) = Some (negb (5 =? 150)).
Proof.
  refine (operator_eq_exact (safe_operand (Examples.strict uint8 0 10 5))
            (safe_operand (Examples.strict uint8 100 200 150)) _ _ _).
  - reflexivity.
  - unfold in_static_range; simpl; lia.
  - unfold in_static_range; simpl; lia.
Defined.

Lemma operator_gt_correct_unless_above (lhs rhs : operand) :
  is_safe (type_of lhs) || is_safe (type_of rhs) = true ->
  in_static_range lhs -> in_static_range rhs ->
  Interval.gt (static_interval (type_of lhs)) (static_interval (type_of rhs))
    <> Interval.tri_true ->
  operator_gt lhs rhs = Some (base_value rhs <? base_value lhs).
Proof.
  intros Hs [Hl1 Hl2] [Hr1 Hr2] Hne. unfold operator_gt. rewrite Hs. simpl.
  revert Hne. unfold Interval.gt, SafeCompare.less_than, SafeCompare.greater_than.
  simpl.
  destruct (Z.ltb_spec (limits_max (type_of rhs)) (limits_min (type_of lhs)));
    [congruence|].
  destruct (Z.ltb_spec (limits_max (type_of lhs)) (limits_min (type_of rhs)));
    simpl; intros _; [|reflexivity].
  f_equal. symmetry. apply Z.ltb_ge. lia.
Qed.

Lemma operator_gt_wrong_when_above (lhs rhs : operand) :
  is_safe (type_of lhs) || is_safe (type_of rhs) = true ->
  in_static_range lhs -> in_static_range rhs ->
  Interval.gt (static_interval (type_of lhs)) (static_interval (type_of rhs))
    = Interval.tri_true ->
  base_value rhs < base_value lhs /\ operator_gt lhs rhs = Some false.
Proof.
  intros Hs [Hl1 Hl2] [Hr1 Hr2] Hgt. split.
  - revert Hgt. unfold Interval.gt, SafeCompare.less_than, SafeCompare.greater_than.
    simpl.
    destruct (Z.ltb_spec (limits_max (type_of rhs)) (limits_min (type_of lhs)));
      [intros _; lia|].
    destruct (_ <? _); discriminate.
  - apply operator_gt_determinate; [exact Hs|]. now rewrite Hgt.
Qed.

(** [operator<] and [operator>] on operands that hold values of their
    static ranges.  [operator<] is the ordering of the two values unless
    the static interval of the left operand lies strictly below that of
    the right one; then the left value is the lesser one and the operator
    is [false].  [operator>] is the ordering of the two values unless the
    static interval of the left operand lies strictly above that of the
    right one; then the left value is the greater one and the operator is
    [false]. *)
Theorem operator_lt_gt_by_intervals (lhs rhs : operand) :
  is_safe (type_of lhs) || is_safe (type_of rhs) = true ->
  in_static_range lhs -> in_static_range rhs ->
  (Interval.lt (static_interval (type_of lhs)) (static_interval (type_of rhs))
     <> Interval.tri_true ->
   operator_lt lhs rhs = Some (base_value lhs <? base_value rhs)) /\
  (Interval.lt (static_interval (type_of lhs)) (static_interval (type_of rhs))
     = Interval.tri_true ->
   base_value lhs < base_value rhs /\ operator_lt lhs rhs = Some false) /\
  (Interval.gt (static_interval (type_of lhs)) (static_interval (type_of rhs))
     <> Interval.tri_true ->
   operator_gt lhs rhs = Some (base_value rhs <? base_value lhs)) /\
  (Interval.gt (static_interval (type_of lhs)) (static_interval (type_of rhs))
     = Interval.tri_true ->
   base_value rhs < base_value lhs /\ operator_gt lhs rhs = Some false).
Proof.
  intros Hs Hl Hr. repeat match goal with |- _ /\ _ => split end.
  - now apply operator_lt_correct_unless_below.
  - now apply operator_lt_wrong_when_below.
  - now apply operator_gt_correct_unless_above.
  - now apply operator_gt_wrong_when_above.
Qed.

(** [safe<0,100>(50) < int8(7)]: the intervals overlap and the values are
    compared. *)
Lemma operator_lt_gt_by_intervals_witness :
  operator_lt (safe_operand (Examples.strict int8 0 100 50)) (native_operand int8 7)
  = Some (50 <? 7).
Proof.
  refine (proj1 (operator_lt_gt_by_intervals
                   (safe_operand (Examples.strict int8 0 100 50)) (native_operand int8 7)
                   _ _ _) _).
  - reflexivity.
  - unfold in_static_range; simpl; lia.
  - unfold in_static_range; vm_compute; split; discriminate.
  - vm_compute. discriminate.
Defined.

(** [operator>=] is written [! (rhs < lhs)] and [operator<=] is written
    [! (rhs > lhs)].  On operands whose static intervals overlap,
    [lhs >= rhs] is therefore [true] exactly when the left value is at
    most the right one, and [lhs <= rhs] exactly when the left value is at
    least the right one.  On strictly ordered static intervals both are
    [true], in either order. *)
Theorem operator_ge_le_as_written (lhs rhs : operand) :
  is_safe (type_of lhs) || is_safe (type_of rhs) = true ->
  (Interval.indeterminate
     (Interval.lt (static_interval (type_of lhs)) (static_interval (type_of rhs))) = true ->
   operator_ge lhs rhs = Some (base_value lhs <=? base_value rhs) /\
   operator_le lhs rhs = Some (base_value rhs <=? base_value lhs)) /\
  (Interval.indeterminate
     (Interval.lt (static_interval (type_of lhs)) (static_interval (type_of rhs))) = false ->
   operator_ge lhs rhs = Some true /\ operator_le lhs rhs = Some true).
Proof.
  intros Hs.
  assert (Hs' : is_safe (type_of rhs) || is_safe (type_of lhs) = true)
    by (now rewrite orb_comm).
  unfold operator_ge, operator_le, operator_lt, operator_gt. rewrite Hs'. simpl.
  rewrite gt_lt_swap.
  rewrite (lt_indeterminate_sym (static_interval (type_of rhs))).
  split; intros ->; simpl.
  - unfold SafeCompare.less_than, SafeCompare.greater_than.
    rewrite <- !Z.leb_antisym. split; reflexivity.
  - split; reflexivity.
Qed.

(** [safe<0,100>(50) >= safe<0,100>(30)] is [false], and
    [safe<0,100>(50) <= safe<0,100>(30)] is [true]. *)
Lemma operator_ge_le_as_written_witness :
  operator_ge (safe_operand (Examples.strict int8 0 100 50))
              (safe_operand (Examples.strict int8 0 100 30)) = Some false /\
  operator_le (safe_operand (Examples.strict int8 0 100 50))
              (safe_operand (Examples.strict int8 0 100 30)) = Some true.
Proof.
  exact (proj1 (operator_ge_le_as_written
                  (safe_operand (Examples.strict int8 0 100 50))
                  (safe_operand (Examples.strict int8 0 100 30)) eq_refl) eq_refl).
Defined.

(* ------------------------------------------------------------------ *)
(** ** The cast operator *)

(** Casting a safe object to a native type that represents its value:
    the value is returned and no hook is called.  In particular an object
    within the bounds of its type, the bounds being values of the stored
    type, casts back to its stored type. *)
Theorem operator_cast_representable
  (ep : policy -> policy_hooks) (EP : policy_hooks) (R : native_int) (s : safe_base) :
  hooks ep (E (params s)) = Some EP ->
  (representable R (m_t s) -> operator_cast ep R s = Some (ret (m_t s))) /\
  (well_formed (params s) -> in_bounds s ->
   operator_cast ep (Stored (params s)) s = Some (ret (m_t s))).
Proof.
  intros HE.
  assert (H : forall R', representable R' (m_t s) ->
                         operator_cast ep R' s = Some (ret (m_t s))).
  { intros R' Hrep. unfold operator_cast, Checked.cast. rewrite HE. cbv zeta.
    destruct (in_range_cases R' "cast out of range" (m_t s))
      as [[_ ->]|[[Hx _]|[Hx _]]]; try (unfold representable in Hrep; lia).
    reflexivity. }
  split; [apply H|].
  intros [Hlo Hhi] Hb. apply H. unfold representable, in_bounds in *. lia.
Qed.

(** [safe<0,255>(200)] of stored type [short] casts to [unsigned char]
    as 200. *)
Lemma operator_cast_representable_witness :
  operator_cast Examples.exceptions uint8 (Examples.strict int16 0 255 200)
  = Some (ret 200).
Proof.
  refine (proj1 (operator_cast_representable Examples.exceptions throw_exception uint8
                   (Examples.strict int16 0 255 200) eq_refl) _).
  unfold representable; vm_compute; split; discriminate.
Defined.

(** Casting a safe object to a native type that does not represent its
    value: [E::range_error] is called once, with the message of the
    carrier.  If the hook does not return nothing else happens; if it
    returns, the conversion of the fault carrier fails its assertion, so
    that no value is returned either way. *)
Theorem operator_cast_out_of_range
  (ep : policy -> policy_hooks) (EP : policy_hooks) (R : native_int) (s : safe_base) :
  hooks ep (E (params s)) = Some EP ->
  ~ representable R (m_t s) ->
  operator_cast ep R s
  = Some ([hook_call range_error "cast out of range"],
          if hook_returns EP range_error then AssertFailed else Thrown).
Proof.
  intros HE Hrep. unfold operator_cast, Checked.cast, invoke. rewrite HE. cbv zeta.
  destruct (in_range_cases R "cast out of range" (m_t s))
    as [[Hx _]|[[_ ->]|[_ ->]]]; [contradiction| |];
    simpl; destruct (hook_returns EP range_error); reflexivity.
Qed.

(** [safe<-1000,1000>(500)] cast to [unsigned char] under an ignoring
    policy: the hook is called and the conversion then fails its
    assertion. *)
Lemma operator_cast_out_of_range_witness :
  operator_cast Examples.exceptions uint8 (Examples.lenient int16 (-1000) 1000 500)
  = Some ([hook_call range_error "cast out of range"], AssertFailed).
Proof.
  refine (operator_cast_out_of_range Examples.exceptions ignore_exception uint8
            (Examples.lenient int16 (-1000) 1000 500) eq_refl _).
  unfold representable; vm_compute. intros [_ H]. apply H. reflexivity.
Defined.

(* ------------------------------------------------------------------ *)
(** ** Conversions in a chain *)

(** A conversion that calls no hook returns the source value in the
    destination type, and that value is within the destination bounds. *)
Lemma silent_conversion
  (ep : policy -> policy_hooks) (this : safe_params) (t : safe_base) (m : M safe_base) :
  well_formed this -> in_bounds t ->
  construct ep this t = Some m -> trace m = [] ->
  result m = Done (mk_safe_base this (m_t t)) /\ Min this <= m_t t <= Max this.
Proof.
  intros Hwf Ht Hc Htr. unfold construct in Hc.
  destruct (convertible this (params t)); [|discriminate]. simpl in Hc.
  destruct (hooks ep (E this)) as [EP|]; [|discriminate]. injection Hc as <-.
  rewrite assign_checked_cases in *.
  assert (Hv : Min this <= m_t t <= Max this).
  { destruct (Interval.includes _ _) eqn:Hinc; simpl in Htr.
    - apply includes_iff in Hinc. simpl in Hinc. unfold in_bounds in Ht. lia.
    - destruct (validate this (m_t t)) eqn:Hval; [|discriminate].
      now apply validate_iff. }
  split; [|exact Hv].
  destruct (_ || _); [|discriminate]. simpl.
  now rewrite stored_value_kept.
Qed.

(** Converting an object, within its bounds, to a type [mid] and the
    result on to a type [this], the bounds of both being values of their
    stored types: when neither step calls a hook, the direct conversion to
    [this] is well-formed, calls no hook either, and returns the same
    object, which holds the value of the source. *)
Theorem conversion_chain_direct
  (ep : policy -> policy_hooks) (mid this : safe_params)
  (t s1 s2 : safe_base) (m1 m2 : M safe_base) :
  well_formed mid -> well_formed this -> in_bounds t ->
  construct ep mid t = Some m1 -> trace m1 = [] -> result m1 = Done s1 ->
  construct ep this s1 = Some m2 -> trace m2 = [] -> result m2 = Done s2 ->
  s2 = mk_safe_base this (m_t t) /\
  construct ep this t = Some (ret s2).
Proof.
  intros Hmid Hthis Ht Hc1 Htr1 Hr1 Hc2 Htr2 Hr2.
  destruct (silent_conversion ep mid t m1 Hmid Ht Hc1 Htr1) as [Hs1 Hv1].
  rewrite Hr1 in Hs1. injection Hs1 as ->.
  assert (Hb1 : in_bounds (mk_safe_base mid (m_t t))) by exact Hv1.
  destruct (silent_conversion ep this _ m2 Hthis Hb1 Hc2 Htr2) as [Hs2 Hv2].
  simpl in Hs2, Hv2. rewrite Hr2 in Hs2. injection Hs2 as ->.
  split; [reflexivity|].
  unfold construct in Hc2 |- *.
  destruct (convertible this (params (mk_safe_base mid (m_t t)))); [|discriminate].
  simpl in Hc2. destruct (hooks ep (E this)) as [EP|]; [|discriminate].
  assert (Hconv : convertible this (params t) = true).
  { unfold convertible. apply lt_indeterminate_iff. simpl.
    unfold in_bounds in Ht. lia. }
  rewrite Hconv. simpl. rewrite assign_checked_cases.
  assert (Hval : validate this (m_t t) = true) by now apply validate_iff.
  rewrite Hval, orb_true_r. now rewrite stored_value_kept.
Qed.

(** [safe<-1000,1000>(200)] to [safe<0,500>] to [safe<100,255>]. *)
Lemma conversion_chain_direct_witness :
  Examples.strict int16 100 255 200
  = mk_safe_base (Examples.range_of int16 100 255 "throw") 200 /\
  construct Examples.exceptions (Examples.range_of int16 100 255 "throw")
    (Examples.strict int16 (-1000) 1000 200)
  = Some (ret (Examples.strict int16 100 255 200)).
Proof.
  refine (conversion_chain_direct Examples.exceptions
            (Examples.range_of int16 0 500 "throw")
            (Examples.range_of int16 100 255 "throw")
            (Examples.strict int16 (-1000) 1000 200)
            (Examples.strict int16 0 500 200)
            (Examples.strict int16 100 255 200)
            ([], Done (Examples.strict int16 0 500 200))
            ([], Done (Examples.strict int16 100 255 200))
            _ _ _ _ _ _ _ _ _); try reflexivity.
  - unfold well_formed, representable; vm_compute; repeat split; discriminate.
  - unfold well_formed, representable; vm_compute; repeat split; discriminate.
  - unfold in_bounds; simpl; lia.
Defined.

(* ------------------------------------------------------------------ *)
(** ** Policy composition with native operands *)

(** [common_policies] of a safe type and a native integer, in either
    order, compiles and resolves the safe type and its two policies; of
    two native integers it does not compile.  Whenever it compiles the
    type it resolves is a safe type, the first of the two operands that
    is one, so that the two static assertions on [safe_type] never
    fire. *)
Theorem common_policies_with_native :
  (forall (s : safe_params) (N : native_int),
      common_policies (safe s) (native N) = Some (mk_policies (safe s) (P s) (E s)) /\
      common_policies (native N) (safe s) = Some (mk_policies (safe s) (P s) (E s))) /\
  (forall N N' : native_int, common_policies (native N) (native N') = None) /\
  (forall (T U : cpp_type) (r : policies),
      common_policies T U = Some r ->
      is_safe (safe_type r) = true /\
      safe_type r = (if is_safe T then T else U) /\
      promotion_policy r = get_promotion_policy (safe_type r) /\
      exception_policy r = get_exception_policy (safe_type r) /\
      compatible (get_promotion_policy T) (get_promotion_policy U) = true /\
      compatible (get_exception_policy T) (get_exception_policy U) = true).
Proof.
  split; [|split].
  - intros s N. rewrite !common_policies_cases. unfold compatible. simpl.
    rewrite !orb_true_r. simpl.
    destruct (policy_eqb None (P s)), (policy_eqb None (E s)); simpl; split; reflexivity.
  - reflexivity.
  - intros T U r. rewrite common_policies_cases.
    destruct (is_safe T) eqn:HT, (is_safe U) eqn:HU; simpl; try discriminate;
      destruct (compatible (get_promotion_policy T) (get_promotion_policy U));
      simpl; try discriminate;
      destruct (compatible (get_exception_policy T) (get_exception_policy U));
      simpl; try discriminate;
      intros H; injection H as <-; simpl; rewrite ?HT, ?HU; repeat split.
Qed.

(* ------------------------------------------------------------------ *)
(** ** Operators on a representative without promotion policy *)

Lemma result_of_void
  (pp : policy -> Promotion.promotion_policy) (f : Promotion.type_function)
  (T U : cpp_type) :
  is_safe T = true -> get_promotion_policy T = None ->
  result_of pp f T U = None.
Proof.
  intros HT HP. unfold result_of. rewrite common_policies_cases. rewrite HT. simpl.
  destruct (_ && _); [|reflexivity]. simpl. rewrite HP. reflexivity.
Qed.

Lemma instantiate_void
  (pp : policy -> Promotion.promotion_policy) (ep : policy -> policy_hooks)
  (res : cpp_type -> cpp_type -> option cpp_type) (T U : cpp_type) :
  res T U = None -> instantiate pp ep res T U = None.
Proof.
  intros H. unfold instantiate. rewrite H. destruct (negb _); reflexivity.
Qed.

(** When the left operand is a safe type whose promotion policy is
    [void], the common policies take [void] from it, and none of the
    arithmetic and bitwise operators is well-formed, whatever the right
    operand and its policies; the comparison operators, which consult no
    policy, remain well-formed. *)
Theorem void_promotion_on_the_left
  (pp : policy -> Promotion.promotion_policy) (ep : policy -> policy_hooks)
  (t u : operand) :
  is_safe (type_of t) = true -> get_promotion_policy (type_of t) = None ->
  (forall op, operator_of pp ep op t u = None) /\
  operator_divide pp ep t u = None /\
  operator_modulus pp ep t u = None /\
  (forall op, bitwise_operator_of pp ep op t u = None) /\
  (forall fuel, operator_left_shift pp ep fuel t u = None /\
                operator_right_shift pp ep fuel t u = None) /\
  operator_lt t u <> None /\ operator_gt t u <> None /\ operator_eq t u <> None.
Proof.
  intros HT HP.
  assert (Hi : forall f, instantiate pp ep (result_of pp f) (type_of t) (type_of u) = None)
    by (intros f; apply instantiate_void, result_of_void; assumption).
  repeat match goal with |- _ /\ _ => split end.
  - intros op. rewrite operator_of_unfold. unfold arithmetic_operator.
    destruct op; simpl; unfold addition_result, subtraction_result, multiplication_result;
      now rewrite Hi.
  - unfold operator_divide, division_result. now rewrite Hi.
  - unfold operator_modulus, modulus_result. now rewrite Hi.
  - intros op. destruct op; simpl;
      unfold operator_or, operator_and, operator_xor, bitwise_operator,
        bitwise_or_result_type, bitwise_and_result_type, bitwise_xor_result_type,
        or_result; now rewrite Hi.
  - intros fuel. unfold operator_left_shift, operator_right_shift,
      left_shift_result, right_shift_result.
    destruct fuel; simpl; rewrite !Hi; split; reflexivity.
  - unfold operator_lt. rewrite HT. discriminate.
  - unfold operator_gt. rewrite HT. discriminate.
  - unfold operator_eq. rewrite HT. discriminate.
Qed.

(** A safe type with [void] for its promotion policy on the left of a
    safe type with a promotion policy: [operator+] is not well-formed. *)
Lemma void_promotion_on_the_left_witness :
  operator_plus Examples.promotions Examples.exceptions
    (safe_operand (mk_safe_base (mk_safe_params int32 0 10 None (Some "throw"%string)) 5))
    (safe_operand (Examples.strict int32 0 10 7)) = None.
Proof.
  exact (proj1 (void_promotion_on_the_left Examples.promotions Examples.exceptions
                  (safe_operand (mk_safe_base
                                   (mk_safe_params int32 0 10 None (Some "throw"%string)) 5))
                  (safe_operand (Examples.strict int32 0 10 7)) eq_refl eq_refl) plus).
Defined.

(* ------------------------------------------------------------------ *)
(** ** The two paths of addition, subtraction and multiplication *)

(** [+], [-] and [*] on any two operands, within their static ranges or
    not: when the exact result is a value of the result base type, and
    either the static intervals select the checked path or the values of
    both operands are values of the result base type too, the operator is
    the construction of the result type from the exact result, the same
    on both paths.  The only hook it can call is the range hook of the
    result type, called exactly when the exact result is outside the
    bounds of the result type. *)
Theorem arithmetic_paths_agree
  (pp : policy -> Promotion.promotion_policy) (ep : policy -> policy_hooks)
  (op : arithmetic) (t u : operand) (i : instance) :
  instantiate pp ep (result_struct pp op) (type_of t) (type_of u) = Some i ->
  representable (result_base_type i) (exact op (base_value t) (base_value u)) ->
  no_exception (interval_of op (result_base_type i)
                  (static_interval (type_of t)) (static_interval (type_of u))) = false \/
  (representable (result_base_type i) (base_value t) /\
   representable (result_base_type i) (base_value u)) ->
  operator_of pp ep op t u
  = Some (if validate (result_type i) (exact op (base_value t) (base_value u))
          then ret (mk_safe_base (result_type i) (exact op (base_value t) (base_value u)))
          else ([hook_call range_error range_message],
                if hook_returns (result_hooks i) range_error
                then Done (mk_safe_base (result_type i)
                             (exact op (base_value t) (base_value u)))
                else Thrown)).
Proof.
  intros Hi Hrep Hpath.
  rewrite (arithmetic_operator_representable pp ep op t u i Hi Hrep Hpath).
  unfold wrap. rewrite of_native_cases.
  unfold result_base_type in Hrep. rewrite static_cast_id by exact Hrep.
  reflexivity.
Qed.

(** [safe<0,10>(5) * safe<0,10>(7)] under a promotion that widens to
    [int]: the product interval [[0, 100]] has no fault, the unchecked
    path is taken, and the result is 35. *)
Lemma arithmetic_paths_agree_witness :
  operator_times Examples.promotions Examples.exceptions
    (safe_operand (Examples.widening int8 0 10 5))
    (safe_operand (Examples.widening int8 0 10 7))
  = Some (ret (mk_safe_base
                 (mk_safe_params int32 (numeric_min int32) (numeric_max int32)
                    (Some "widen"%string) (Some "throw"%string)) 35)).
Proof.
  refine (arithmetic_paths_agree Examples.promotions Examples.exceptions times
            (safe_operand (Examples.widening int8 0 10 5))
            (safe_operand (Examples.widening int8 0 10 7))
            (mk_instance
               (mk_safe_params int32 (numeric_min int32) (numeric_max int32)
                  (Some "widen"%string) (Some "throw"%string))
               (Examples.promotions "widen"%string) throw_exception throw_exception)
            _ _ _).
  - reflexivity.
  - unfold representable; vm_compute; split; discriminate.
  - right. unfold representable; vm_compute. repeat split; discriminate.
Defined.

(* ------------------------------------------------------------------ *)
(** ** The shift operators *)

Lemma shift_operator_of_unfold
  (pp : policy -> Promotion.promotion_policy) (ep : policy -> policy_hooks)
  (sh : shift) (fuel : nat) (t u : operand) :
  shift_operator_of pp ep sh fuel t u
  = shift_operator pp ep (shift_result_struct pp sh) (shift_interval_of sh)
                   (shift_checked_of sh) fuel t u.
Proof. destruct sh; reflexivity. Qed.

(** [operator<<] and [operator>>] on integers.  When the interval of the
    result has no fault, the operator calls itself on the same two
    operands and so never returns, however deep the calls may go; when
    the interval has a fault, it returns at once with what the checked
    primitive and the dispatch come to. *)
Theorem shift_unchecked_path_never_returns
  (pp : policy -> Promotion.promotion_policy) (ep : policy -> policy_hooks)
  (sh : shift) (t u : operand) (i : instance) :
  instantiate pp ep (shift_result_struct pp sh) (type_of t) (type_of u) = Some i ->
  (no_exception (shift_interval_of sh (result_base_type i)
                   (static_interval (type_of t)) (static_interval (type_of u))) = true ->
   forall fuel, shift_operator_of pp ep sh fuel t u = Some out_of_fuel) /\
  (no_exception (shift_interval_of sh (result_base_type i)
                   (static_interval (type_of t)) (static_interval (type_of u))) = false ->
   forall fuel,
     shift_operator_of pp ep sh (S fuel) t u
     = Some (returned (deliver i (shift_checked_of sh (result_base_type i)
                                    (base_value t) (base_value u))))).
Proof.
  intros Hi. split; intros Hn fuel; rewrite shift_operator_of_unfold.
  - induction fuel as [|fuel IH]; simpl; rewrite Hi; [reflexivity|].
    rewrite Hn. exact IH.
  - simpl. rewrite Hi, Hn. reflexivity.
Qed.

(** [safe<0,3>(1) << safe<0,2>(1)] in [unsigned char]: the interval
    [[0, 12]] has no fault, and a thousand calls deep the operator has not
    returned. *)
Lemma shift_unchecked_path_never_returns_witness :
  operator_left_shift Examples.promotions Examples.exceptions 1000
    (safe_operand (Examples.strict uint8 0 3 1))
    (safe_operand (Examples.strict uint8 0 2 1)) = Some out_of_fuel.
Proof.
  exact (proj1 (shift_unchecked_path_never_returns Examples.promotions Examples.exceptions
                  shift_left
                  (safe_operand (Examples.strict uint8 0 3 1))
                  (safe_operand (Examples.strict uint8 0 2 1))
                  (mk_instance (Examples.range_of uint8 0 3 "throw")
                     (Examples.promotions "same"%string) throw_exception throw_exception)
                  eq_refl) eq_refl 1000%nat).
Defined.

(* ------------------------------------------------------------------ *)
(** ** The bitwise operators *)

Definition checked_bitwise_of (op : bitwise) : native_int -> Z -> Z -> checked_result Z :=
  match op with
  | bit_or => Checked.bitwise_or
  | bit_and => Checked.bitwise_and
  | bit_xor => Checked.bitwise_xor
  end.

Lemma bitwise_operator_of_unfold
  (pp : policy -> Promotion.promotion_policy) (ep : policy -> policy_hooks)
  (op : bitwise) (t u : operand) :
  bitwise_operator_of pp ep op t u
  = bitwise_operator pp ep (or_result pp) (checked_bitwise_of op) t u.
Proof. destruct op; reflexivity. Qed.

Lemma checked_bitwise_exact (op : bitwise) (R : native_int) (a b : Z) :
  0 <= a -> 0 <= b -> representable R (bitwise_exact op a b) ->
  checked_bitwise_of op R a b = of_value (bitwise_exact op a b).
Proof.
  intros Ha Hb Hrep.
  assert (H : Checked.bitwise (bitwise_exact op) R a b = of_value (bitwise_exact op a b)).
  { unfold Checked.bitwise.
    destruct (Z.ltb_spec a 0); [lia|]. destruct (Z.ltb_spec b 0); [lia|]. simpl.
    destruct (in_range_cases R "bitwise result out of range" (bitwise_exact op a b))
      as [[_ ->]|[[Hx _]|[Hx _]]]; try (unfold representable in Hrep; lia).
    reflexivity. }
  destruct op; exact H.
Qed.

(** [|], [&] and [^]: a well-formed use has unsigned base types for both
    operands and for the result, and has no unchecked path: the checked
    primitive is always called and its result dispatched.  On operand
    values that are not negative, with the exact bitwise result a value of
    the result base type, the operator is the construction of the result
    type from that exact result. *)
Theorem bitwise_operators_unsigned_checked
  (pp : policy -> Promotion.promotion_policy) (ep : policy -> policy_hooks)
  (op : bitwise) (t u : operand) (m : M safe_base) :
  bitwise_operator_of pp ep op t u = Some m ->
  is_signed (base_type (type_of t)) = false /\
  is_signed (base_type (type_of u)) = false /\
  exists i,
    instantiate pp ep (or_result pp) (type_of t) (type_of u) = Some i /\
    is_signed (result_base_type i) = false /\
    m = deliver i (checked_bitwise_of op (result_base_type i) (base_value t) (base_value u)) /\
    (0 <= base_value t -> 0 <= base_value u ->
     representable (result_base_type i) (bitwise_exact op (base_value t) (base_value u)) ->
     m = wrap i (bitwise_exact op (base_value t) (base_value u))).
Proof.
  rewrite bitwise_operator_of_unfold. unfold bitwise_operator.
  destruct (instantiate pp ep (or_result pp) (type_of t) (type_of u)) as [i|] eqn:Hi;
    [|discriminate].
  unfold unsigned_integer.
  destruct (is_signed (base_type (type_of t))); [discriminate|].
  destruct (is_signed (base_type (type_of u))); [discriminate|]. simpl.
  destruct (is_signed (result_base_type i)) eqn:Hr; [discriminate|].
  intros H. injection H as <-. repeat split. exists i. repeat split; try assumption.
  intros Ha Hb Hrep.
  rewrite checked_bitwise_exact by assumption.
  rewrite deliver_value, static_cast_id by exact Hrep. reflexivity.
Qed.

(** [safe<0,255>(0x0F) | safe<0,255>(0xF0)] in [unsigned char] is
    0xFF. *)
Lemma bitwise_operators_unsigned_checked_witness :
  exists i,
    instantiate Examples.promotions Examples.exceptions (or_result Examples.promotions)
      (safe (Examples.range_of uint8 0 255 "throw"))
      (safe (Examples.range_of uint8 0 255 "throw")) = Some i /\
    ret (Examples.strict uint8 0 255 255) = wrap i (Z.lor 15 240).
Proof.
  destruct (bitwise_operators_unsigned_checked Examples.promotions Examples.exceptions
              bit_or
              (safe_operand (Examples.strict uint8 0 255 15))
              (safe_operand (Examples.strict uint8 0 255 240))
              (ret (Examples.strict uint8 0 255 255)) eq_refl)
    as (_ & _ & i & Hi & _ & _ & Hm).
  exists i. split; [exact Hi|]. apply Hm.
  - simpl; lia.
  - simpl; lia.
  - injection Hi as <-. unfold representable; vm_compute; split; discriminate.
Defined.

(* ------------------------------------------------------------------ *)
(** ** The type of what the operators return *)

Lemma bind_lift_params {A} (i : instance) (o : outcome A) (f : A -> Z) (s : safe_base) :
  result (bind (lift o) (fun a => wrap i (f a))) = Done s ->
  params s = result_type i.
Proof.
  destruct o as [a| | |]; simpl; try discriminate.
  destruct (wrap i (f a)) as [tr o'] eqn:Hw. simpl. intros ->.
  apply (wrap_params i (f a)). now rewrite Hw.
Qed.

(** Every object that [+], [-], [*], [/] or [%] returns is of the type
    that the type function of the common promotion policy for that
    operator yields on the operand types and the common policies. *)
Theorem arithmetic_results_typed
  (pp : policy -> Promotion.promotion_policy) (ep : policy -> policy_hooks)
  (t u : operand) (m : M safe_base) (s : safe_base) :
  result m = Done s ->
  (forall op, operator_of pp ep op t u = Some m ->
              result_struct pp op (type_of t) (type_of u) = Some (safe (params s))) /\
  (operator_divide pp ep t u = Some m ->
   division_result pp (type_of t) (type_of u) = Some (safe (params s))) /\
  (operator_modulus pp ep t u = Some m ->
   modulus_result pp (type_of t) (type_of u) = Some (safe (params s))).
Proof.
  intros Hs. split; [|split].
  - intros op. rewrite operator_of_unfold. unfold arithmetic_operator.
    destruct (instantiate _ _ _ _ _) as [i|] eqn:Hi; [|discriminate].
    cbv zeta. destruct (no_exception _); intros H; injection H as <-.
    + apply (bind_lift_params i _ (fun v => v)) in Hs. rewrite Hs.
      eapply instantiate_result; eauto.
    + apply deliver_params in Hs. rewrite Hs. eapply instantiate_result; eauto.
  - unfold operator_divide.
    destruct (instantiate _ _ _ _ _) as [i|] eqn:Hi; [|discriminate].
    cbv zeta. destruct (divide_unchecked _ _ _); intros H; injection H as <-.
    + apply (bind_lift_params i _ (fun q => q)) in Hs. rewrite Hs.
      eapply instantiate_result; eauto.
    + apply deliver_params in Hs. rewrite Hs. eapply instantiate_result; eauto.
  - unfold operator_modulus.
    destruct (instantiate _ _ _ _ _) as [i|] eqn:Hi; [|discriminate].
    cbv zeta. destruct (modulus_unchecked _); intros H; injection H as <-.
    + apply (bind_lift_params i _ (fun q => q)) in Hs. rewrite Hs.
      eapply instantiate_result; eauto.
    + apply deliver_params in Hs. rewrite Hs. eapply instantiate_result; eauto.
Qed.

(** [safe<1,10>(7) / safe<-3,3>(2)] under a widening promotion is an
    object of the widened type. *)
Lemma arithmetic_results_typed_witness :
  division_result Examples.promotions
    (safe (params (Examples.widening int8 1 10 7)))
    (safe (params (Examples.widening int8 (-3) 3 2)))
  = Some (safe (mk_safe_params int32 (numeric_min int32) (numeric_max int32)
                  (Some "widen"%string) (Some "throw"%string))).
Proof.
  exact (proj1 (proj2 (arithmetic_results_typed Examples.promotions Examples.exceptions
                         (safe_operand (Examples.widening int8 1 10 7))
                         (safe_operand (Examples.widening int8 (-3) 3 2))
                         (ret (mk_safe_base
                                 (mk_safe_params int32 (numeric_min int32) (numeric_max int32)
                                    (Some "widen"%string) (Some "throw"%string)) 3))
                         _ eq_refl)) eq_refl).
Defined.

(* ------------------------------------------------------------------ *)
(** ** The unchecked path of the modulus *)

Lemma promote_bits (A : native_int) : (bits A <= bits (promote A))%positive.
Proof.
  unfold promote. destruct (Pos.ltb_spec (bits A) (bits cpp_int)); lia.
Qed.

Lemma common_type_bits (A B : native_int) :
  (bits A <= bits (common_type A B))%positive /\
  (bits B <= bits (common_type A B))%positive.
Proof.
  pose proof (promote_bits A). pose proof (promote_bits B).
  unfold common_type. cbv zeta.
  destruct (Bool.eqb (is_signed (promote A)) (is_signed (promote B))).
  - destruct (Pos.ltb_spec (bits (promote A)) (bits (promote B))); lia.
  - destruct (is_signed (promote A)); simpl;
      match goal with |- context [(?x <=? ?y)%positive] =>
        destruct (Pos.leb_spec x y) end; lia.
Qed.

(** A value of a type that is not zero is not turned into zero by the
    conversion to a type at least as wide. *)
Lemma static_cast_nonzero (A C : native_int) (v : Z) :
  (bits A <= bits C)%positive -> representable A v -> v <> 0 ->
  static_cast C v <> 0.
Proof.
  intros Hb Hrep Hv Hz.
  destruct (static_cast_congr C v) as [k Hk]. rewrite Hz in Hk.
  pose proof (modulus_pos A). pose proof (modulus_half A). pose proof (half_pos A).
  assert (Hle : modulus A <= modulus C).
  { unfold modulus. apply Z.pow_le_mono_r; lia. }
  assert (Habs : - modulus A < v < modulus A).
  { unfold representable, numeric_min, numeric_max in Hrep.
    destruct (is_signed A); lia. }
  assert (k = 0 \/ k <= -1 \/ 1 <= k) as [->|[Hk'|Hk']] by lia; nia.
Qed.

(** [operator%] on its unchecked path, with a divisor that holds a value
    of its static range which its base type represents: the divisor, as
    converted to the type of the native expression, is not zero, so the
    native remainder is no division by zero.  When that type, the one the
    usual arithmetic conversions give for the two base types, represents
    the values of both operands, and the operands are not the least value
    of a signed type and -1, the operator is the construction of the
    result type from the exact remainder, which has the sign of the
    dividend. *)
Theorem modulus_unchecked_divisor_nonzero
  (pp : policy -> Promotion.promotion_policy) (ep : policy -> policy_hooks)
  (t u : operand) (i : instance) :
  instantiate pp ep (modulus_result pp) (type_of t) (type_of u) = Some i ->
  modulus_path (type_of u) = unchecked_path ->
  in_static_range u ->
  representable (base_type (type_of u)) (base_value u) ->
  static_cast (common_type (base_type (type_of t)) (base_type (type_of u))) (base_value u)
    <> 0 /\
  (representable (common_type (base_type (type_of t)) (base_type (type_of u)))
     (base_value t) ->
   representable (common_type (base_type (type_of t)) (base_type (type_of u)))
     (base_value u) ->
   ~ (is_signed (common_type (base_type (type_of t)) (base_type (type_of u))) = true /\
      base_value t
      = numeric_min (common_type (base_type (type_of t)) (base_type (type_of u))) /\
      base_value u = -1) ->
   operator_modulus pp ep t u
   = Some (wrap i (Z.rem (base_value t) (base_value u)))).
Proof.
  intros Hi Hpath Hr Hrep.
  assert (Hmu : modulus_unchecked (static_interval (type_of u)) = true).
  { unfold modulus_path in Hpath.
    destruct (modulus_unchecked (static_interval (type_of u))); [reflexivity|discriminate]. }
  assert (Hv : base_value u <> 0).
  { intros H0. pose proof (in_static_range_zero u Hr H0) as Hz.
    apply modulus_unchecked_iff in Hpath. congruence. }
  split.
  - eapply static_cast_nonzero; eauto. apply common_type_bits.
  - intros Hta Hua Hedge.
    unfold operator_modulus. rewrite Hi. cbv zeta. rewrite Hmu.
    rewrite !static_cast_id by assumption.
    unfold native_rem. apply Z.eqb_neq in Hv. rewrite Hv.
    destruct (is_signed _ && (base_value t =? _) && (base_value u =? -1)) eqn:Hm.
    + exfalso. apply Hedge.
      apply andb_true_iff in Hm. destruct Hm as [Hm Hb1].
      apply andb_true_iff in Hm. destruct Hm as [Hs Ha1].
      apply Z.eqb_eq in Ha1, Hb1. auto.
    + now rewrite bind_lift_done.
Qed.

(** [safe<-100,100>(-47) % safe<1,10>(5)], of stored types [signed char]
    and [unsigned char]: both are promoted to [int], and the result is
    -2. *)
Lemma modulus_unchecked_divisor_nonzero_witness :
  operator_modulus Examples.promotions Examples.exceptions
    (safe_operand (Examples.strict int8 (-100) 100 (-47)))
    (safe_operand (Examples.strict uint8 1 10 5))
  = Some (ret (Examples.strict int8 (-100) 100 (-2))).
Proof.
  refine (proj2 (modulus_unchecked_divisor_nonzero Examples.promotions Examples.exceptions
                   (safe_operand (Examples.strict int8 (-100) 100 (-47)))
                   (safe_operand (Examples.strict uint8 1 10 5))
                   (mk_instance (Examples.range_of int8 (-100) 100 "throw")
                      (Examples.promotions "same"%string) throw_exception throw_exception)
                   _ _ _ _) _ _ _).
  - reflexivity.
  - reflexivity.
  - unfold in_static_range; simpl; lia.
  - unfold representable; vm_compute; split; discriminate.
  - unfold representable; vm_compute; split; discriminate.
  - unfold representable; vm_compute; split; discriminate.
  - vm_compute. intros (_ & H & _). discriminate H.
Defined.

